(** * DroneScan: a shallow embedding of [tools/dronescan.py]

    The development follows the layout of the script: Python string
    primitives, signature loading ([load_ouis]), the helpers
    ([mac_to_oui], [parse_airodump_csv]), the capture-process supervisor
    ([AirodumpRunner]) and the detection loop of [main] with its
    de-duplication map.

    Conventions of the model
    - Python [str] is [string]; the text handled here (hardware addresses,
      column markers, command-line flags) is ASCII, and characters above
      127 are treated as caseless and non-blank.
    - [time.time()] is an integer number of time units ([Z]).
    - A compiled regular expression is represented by its search
      predicate, [rx.search(s) is not None].
    - Library readers ([csv.reader], [csv.DictReader]) are represented by
      the sequence of rows they yield. *)

From Stdlib Require Import ZArith Ascii String List Bool Lia.
From stdpp Require Import base gmap strings list fin_maps pretty sorting.

Open Scope string_scope.

(** ** Python string primitives *)

Module PyStr.

(** [c.isspace()] on the ASCII range: TAB..CR, FS..US and the blank. *)
Definition isspace (c : ascii) : bool :=
  let n := nat_of_ascii c in
  ((9 <=? n) && (n <=? 13) || (28 <=? n) && (n <=? 32))%nat.

Definition islower (c : ascii) : bool :=
  let n := nat_of_ascii c in ((97 <=? n) && (n <=? 122))%nat.

Definition upper_char (c : ascii) : ascii :=
  if islower c then ascii_of_nat (nat_of_ascii c - 32) else c.

(** [s.upper()] *)
Fixpoint upper (s : string) : string :=
  match s with
  | EmptyString => EmptyString
  | String c s' => String (upper_char c) (upper s')
  end.

Definition replace_char (old new c : ascii) : ascii :=
  if Ascii.eqb c old then new else c.

(** [s.replace(old, new)] for one-character [old] and [new]. *)
Fixpoint replace (old new : ascii) (s : string) : string :=
  match s with
  | EmptyString => EmptyString
  | String c s' => String (replace_char old new c) (replace old new s')
  end.

(** [s.lstrip()] *)
Fixpoint lstrip (s : string) : string :=
  match s with
  | EmptyString => EmptyString
  | String c s' => if isspace c then lstrip s' else s
  end.

(** [s.rstrip()] *)
Fixpoint rstrip (s : string) : string :=
  match s with
  | EmptyString => EmptyString
  | String c s' =>
      match rstrip s' with
      | EmptyString => if isspace c then EmptyString else String c EmptyString
      | r => String c r
      end
  end.

(** [s.strip()] *)
Definition strip (s : string) : string := rstrip (lstrip s).

(** [s.count(c)] for a one-character [c]. *)
Fixpoint count (c : ascii) (s : string) : nat :=
  match s with
  | EmptyString => 0
  | String d s' => (if Ascii.eqb d c then 1 else 0) + count c s'
  end.

(** [s.split(sep)] for a one-character [sep]: never empty, [""] splits
    to [[""]]. *)
Fixpoint split (sep : ascii) (s : string) : list string :=
  match s with
  | EmptyString => [EmptyString]
  | String c s' =>
      if Ascii.eqb c sep then EmptyString :: split sep s'
      else match split sep s' with
           | p :: ps => String c p :: ps
           | [] => [String c EmptyString]
           end
  end.

(** [sep.join(parts)] *)
Fixpoint join (sep : string) (parts : list string) : string :=
  match parts with
  | [] => EmptyString
  | [p] => p
  | p :: ps => p +:+ sep +:+ join sep ps
  end.

(** [s.startswith(p)] *)
Definition startswith (p s : string) : bool := String.prefix p s.

(** Truth value of a string: [bool(s)]. *)
Definition truthy (s : string) : bool :=
  match s with EmptyString => false | _ => true end.

(** [x or ""] for an optional string. *)
Definition or_empty (x : option string) : string := default EmptyString x.

(** Predicates over all characters of a string. *)
Fixpoint all_chars (P : ascii -> bool) (s : string) : bool :=
  match s with
  | EmptyString => true
  | String c s' => P c && all_chars P s'
  end.

End PyStr.

Import PyStr.

(** ** Helpers *)

(** [mac_to_oui], lines 109-113. *)
Definition mac_to_oui (mac : string) : string :=
  let mac := replace "-" ":" (upper (strip mac)) in
  if negb (String.length mac =? 17)%nat || negb (count ":" mac =? 5)%nat
  then ""
  else join ":" (firstn 3 (split ":" mac)).

(** ** Data loading *)

(** A row yielded by [csv.DictReader]: column name to value.  A short
    line leaves its missing columns at [None]. *)
Abbreviation dict_row := (gmap string (option string)).

(** [row.get(k)] *)
Definition row_get (row : dict_row) (k : string) : option string :=
  mjoin (row !! k).

(** The [data/] directory: the rows of each CSV file by name, [None] when
    the file does not exist. *)
Abbreviation data_dir := (string -> option (list dict_row)).

(** Body of the row loop of [load_ouis], lines 60-63. *)
Definition add_oui_row (ouis : gset string) (row : dict_row) : gset string :=
  let oui := replace "-" ":" (upper (strip (or_empty (row_get row "oui")))) in
  let parts := split ":" oui in
  if (length parts =? 3)%nat
     && forallb (fun x => (String.length x =? 2)%nat) parts
  then {[ join ":" parts ]} ∪ ouis
  else ouis.

(** Body of the source loop of [load_ouis], lines 54-63. *)
Definition add_oui_source (data : data_dir)
    (ouis : gset string) (name : string) : gset string :=
  match data name with
  | None => ouis
  | Some rows => fold_left add_oui_row rows ouis
  end.

(** [load_ouis], lines 47-64. *)
Definition load_ouis (data : data_dir) (include_modules : bool)
    : gset string :=
  let sources :=
    (["oui_drones.csv"]
       ++ (if include_modules then ["oui_modules.csv"] else []))%list in
  fold_left (add_oui_source data) sources ∅.

(** A compiled pattern, as the predicate [rx.search(s) is not None]. *)
Abbreviation pattern := (string -> bool).

(** The result of [load_ssid_rules]: labels with their compiled patterns,
    in the dictionary's insertion order. *)
Abbreviation ssid_rule_set := (list (string * list pattern)).

(** ** Snapshot parsing *)

(** One access-point record, the dictionary built at lines 155-162. *)
Record ap_row := mk_ap_row {
  bssid : string;
  essid : string;
  channel : string;
  power : string;
  first_seen : string;
  last_seen : string
}.

(** A row yielded by [csv.reader]; a blank line yields [[]]. *)
Abbreviation csv_row := (list string).

(** [row[i]] on a row already known to be long enough. *)
Definition col (row : csv_row) (i : nat) : string := nth i row "".

(** Line 140: the row opens the access-point table. *)
Definition is_header_row (row : csv_row) : bool :=
  startswith "BSSID" (upper (strip (col row 0))).

(** Lines 149-162. *)
Definition ap_of_row (row : csv_row) : ap_row :=
  {| bssid := upper (strip (col row 0));
     essid := strip (col row 13);
     channel := strip (col row 3);
     power := strip (col row 8);
     first_seen := strip (col row 1);
     last_seen := strip (col row 2) |}.

(** The row loop of [parse_airodump_csv], lines 133-162, started with the
    given [header_seen]; [aps.append] becomes a cons in reading order and
    [break] ends the recursion. *)
Fixpoint parse_rows (header_seen : bool) (rows : list csv_row)
    : list ap_row :=
  match rows with
  | [] => []
  | row :: rest =>
      match row with
      | [] => if header_seen then [] else parse_rows header_seen rest
      | _ :: _ =>
          if is_header_row row then parse_rows true rest
          else if negb header_seen then parse_rows header_seen rest
          else if (length row <? 14)%nat then parse_rows header_seen rest
          else ap_of_row row :: parse_rows header_seen rest
      end
  end.

(** What [open(path)] does: it yields the rows of the file or raises. *)
Inductive os_error := FileNotFoundError | OtherOSError.

Inductive open_result :=
  | Opened (rows : list csv_row)
  | OpenRaises (e : os_error).

Abbreviation file_system := (string -> open_result).

(** [parse_airodump_csv], lines 124-165: the result, or the exception
    that escapes the function. *)
Definition parse_airodump_csv (fs : file_system) (path : string)
    : list ap_row + os_error :=
  match fs path with
  | Opened rows => inl (parse_rows false rows)
  | OpenRaises FileNotFoundError => inl []
  | OpenRaises e => inr e
  end.

(** ** Airodump management *)

Module Runner.

(** What [proc.poll()] reports: [None] while the child runs, its return
    code once it has exited. *)
Inductive proc_status := Running | Exited.

(** The fields set by [AirodumpRunner.__init__], lines 171-178; [proc] is
    [None] until [start] has spawned the child. *)
Record t := mk {
  iface : string;
  prefix : string;
  band : option string;
  channels : option string;
  write_interval : Z;
  airodump_bin : string;
  proc : option proc_status
}.

(** Truth value of an optional string: [None] and [""] are false. *)
Definition opt_truthy (o : option string) : bool :=
  match o with Some s => truthy s | None => false end.

(** The argument list built by [start], lines 181-186. *)
Definition start_cmd (r : t) : list string :=
  let cmd :=
    [airodump_bin r; iface r; "--output-format"; "csv";
     "--write"; prefix r; "--write-interval"; pretty (write_interval r)] in
  if opt_truthy (channels r) then
    (cmd ++ ["--channel"; or_empty (channels r)])%list
  else if opt_truthy (band r) then
    (cmd ++ ["--band"; or_empty (band r)])%list
  else cmd.

(** [start], lines 180-189: [popen_ok] tells whether [subprocess.Popen]
    succeeds; when it raises, the exception leaves [start] and nothing is
    returned. *)
Definition start (popen_ok : bool) (r : t) : option (list string * t) :=
  let cmd := start_cmd r in
  if popen_ok then
    Some (cmd, mk (iface r) (prefix r) (band r) (channels r)
                  (write_interval r) (airodump_bin r) (Some Running))
  else None.

(** The command line is [bin iface (flag value)*]: the flags are the
    arguments at even offsets after the two leading positions. *)
Fixpoint flag_positions (args : list string) : list string :=
  match args with
  | f :: _ :: rest => f :: flag_positions rest
  | [f] => [f]
  | [] => []
  end.

Definition flags_of (cmd : list string) : list string :=
  flag_positions (skipn 2 cmd).

Definition passes_flag (f : string) (cmd : list string) : bool :=
  bool_decide (f ∈ flags_of cmd).

(** *** [stop]: a small state-and-exception monad over the child *)

(** Exceptions below [Exception] that the calls on the child can raise. *)
Inductive exn := TimeoutExpired | OtherException.

(** Calls made on the child, in order. *)
Inductive sys_call := Terminate | Wait | Kill.

(** How the operating system answers during one [stop]: the exception
    each call raises, if any, and what [poll] reports afterwards when the
    child was not reaped by [wait]. *)
Record os_behaviour := mk_os {
  terminate_raises : option exn;
  wait_raises : option exn;
  kill_raises : option exn;
  status_left : proc_status
}.

Record world := mk_world {
  status : proc_status;
  calls : list sys_call
}.

Definition M (A : Type) : Type := world -> (A + exn) * world.

Definition ret {A} (a : A) : M A := fun w => (inl a, w).

Definition bind {A B} (m : M A) (k : A -> M B) : M B :=
  fun w =>
    match m w with
    | (inl a, w') => k a w'
    | (inr e, w') => (inr e, w')
    end.

(** [try: m except <handled by h>: ...]; an exception for which [h] has no
    handler keeps propagating. *)
Definition try_except {A} (m : M A) (h : exn -> option (M A)) : M A :=
  fun w =>
    match m w with
    | (inl a, w') => (inl a, w')
    | (inr e, w') =>
        match h e with
        | Some handler => handler w'
        | None => (inr e, w')
        end
    end.

Definition raise_or_return (o : option exn) : unit + exn :=
  match o with Some e => inr e | None => inl tt end.

Definition log_call (c : sys_call) (st : proc_status) (w : world) : world :=
  mk_world st (calls w ++ [c]).

(** [proc.terminate()] *)
Definition terminate (os : os_behaviour) : M unit :=
  fun w => (raise_or_return (terminate_raises os),
            log_call Terminate (status_left os) w).

(** [proc.wait(timeout=2)]: returning normally means the child exited. *)
Definition wait (os : os_behaviour) : M unit :=
  fun w => (raise_or_return (wait_raises os),
            log_call Wait
              (match wait_raises os with
               | Some _ => status_left os
               | None => Exited
               end) w).

(** [proc.kill()] *)
Definition kill (os : os_behaviour) : M unit :=
  fun w => (raise_or_return (kill_raises os),
            log_call Kill (status_left os) w).

(** Lines 193-200. *)
Definition stop_body (os : os_behaviour) : M unit :=
  try_except
    (bind (terminate os) (fun _ =>
     try_except (wait os)
       (fun e => match e with
                 | TimeoutExpired => Some (kill os)
                 | _ => None
                 end)))
    (fun _ => Some (ret tt)).

(** [stop], lines 191-200: the result (normal return or escaping
    exception), the calls made on the child, and the runner afterwards. *)
Definition stop (os : os_behaviour) (r : t)
    : (unit + exn) * list sys_call * t :=
  match proc r with
  | Some Running =>
      let '(res, w) := stop_body os (mk_world Running []) in
      (res, calls w,
       mk (iface r) (prefix r) (band r) (channels r)
          (write_interval r) (airodump_bin r) (Some (status w)))
  | _ => (inl tt, [], r)
  end.

(** Successive calls of [stop], one operating-system behaviour per call;
    the results and call traces are returned in calling order. *)
Fixpoint stop_many (oss : list os_behaviour) (r : t)
    : list ((unit + exn) * list sys_call) * t :=
  match oss with
  | [] => ([], r)
  | os :: oss' =>
      let '(res, tr, r') := stop os r in
      let '(out, r'') := stop_many oss' r' in
      ((res, tr) :: out, r'')
  end.

End Runner.

(** ** Detection loop *)

Inductive severity := DRONE_CONFIRMED | OUI_MATCH | SSID_MATCH.

#[global] Instance severity_eq_dec : EqDecision severity.
Proof. solve_decision. Defined.

#[global] Instance severity_countable : Countable severity.
Proof.
  refine (inj_countable'
    (fun s => match s with
              | DRONE_CONFIRMED => 0%nat | OUI_MATCH => 1%nat
              | SSID_MATCH => 2%nat end)
    (fun n => match n with
              | 0%nat => DRONE_CONFIRMED | 1%nat => OUI_MATCH
              | _ => SSID_MATCH end) _).
  by intros [].
Defined.

(** The de-duplication key of line 302. *)
Abbreviation dedup_key := (severity * string * string)%type.

(** The dictionary [last_emit] of line 225. *)
Abbreviation dedup_state := (gmap dedup_key Z).

(** [should_emit], lines 226-231, with the dictionary it updates passed
    in and out. *)
Definition should_emit (dedup_secs : Z) (last_emit : dedup_state)
    (key : dedup_key) (now_ts : Z) : bool * dedup_state :=
  let prev := default 0%Z (last_emit !! key) in
  if (dedup_secs <=? now_ts - prev)%Z
  then (true, <[key := now_ts]> last_emit)
  else (false, last_emit).

(** Line 284. *)
Definition oui_hit_of (ouis : gset string) (oui : string) : bool :=
  if truthy oui then bool_decide (oui ∈ ouis) else false.

(** Lines 287-291. *)
Definition ssid_hits_of (ssid_rules : ssid_rule_set) (essid : string)
    : list string :=
  if truthy essid then
    map fst
      (List.filter (fun rule => existsb (fun rx : pattern => rx essid)
                                        (snd rule))
                   ssid_rules)
  else [].

(** Truth value of a list. *)
Definition nonempty {A} (l : list A) : bool :=
  match l with [] => false | _ => true end.

(** Lines 293-299. *)
Definition classify (oui_hit : bool) (ssid_hits : list string)
    : option severity :=
  if oui_hit && nonempty ssid_hits then Some DRONE_CONFIRMED
  else if oui_hit then Some OUI_MATCH
  else if nonempty ssid_hits then Some SSID_MATCH
  else None.

(** The payload of lines 305-316. *)
Record alert := mk_alert {
  a_time : string;
  a_severity : severity;
  a_bssid : string;
  a_channel : string;
  a_power : string;
  a_ssid : option string;
  a_oui : option string;
  a_ssid_labels : option (list string);
  a_source : string;
  a_csv : string
}.

(** What the loop does with one record. *)
Inductive decision :=
  | Skipped        (* empty address, line 280 *)
  | NoMatch        (* no severity, line 301 *)
  | Suppressed (sev : severity)
  | Emitted (a : alert).

(** The settings and rule sets the loop reads. *)
Record engine := mk_engine {
  ouis : gset string;
  ssid_rules : ssid_rule_set;
  dedup_secs : Z
}.

(** The severity computed at lines 283-299 for a record that passed the
    address guard. *)
Definition severity_of (e : engine) (ap : ap_row) : option severity :=
  classify (oui_hit_of (ouis e) (mac_to_oui (bssid ap)))
           (ssid_hits_of (ssid_rules e) (essid ap)).

Definition none_if_empty (s : string) : option string :=
  if truthy s then Some s else None.

(** Body of the record loop, lines 275-331. *)
Definition scan_row (e : engine) (now_iso : string) (now : Z)
    (csv_path : string) (last_emit : dedup_state) (ap : ap_row)
    : decision * dedup_state :=
  if negb (truthy (bssid ap)) then (Skipped, last_emit)
  else
    let oui := mac_to_oui (bssid ap) in
    let oui_hit := oui_hit_of (ouis e) oui in
    let ssid_hits := ssid_hits_of (ssid_rules e) (essid ap) in
    match classify oui_hit ssid_hits with
    | None => (NoMatch, last_emit)
    | Some sev =>
        let key := (sev, if oui_hit then oui else "", essid ap) in
        match should_emit (dedup_secs e) last_emit key now with
        | (false, st) => (Suppressed sev, st)
        | (true, st) =>
            (Emitted
               {| a_time := now_iso;
                  a_severity := sev;
                  a_bssid := bssid ap;
                  a_channel := channel ap;
                  a_power := power ap;
                  a_ssid := none_if_empty (essid ap);
                  a_oui := if oui_hit then Some oui else None;
                  a_ssid_labels :=
                    if nonempty ssid_hits then Some ssid_hits else None;
                  a_source := "dronescan(airodump-ng)";
                  a_csv := csv_path |}, st)
        end
    end.

(** The record loop over one snapshot, lines 274-331. *)
Fixpoint scan_rows (e : engine) (now_iso : string) (now : Z)
    (csv_path : string) (last_emit : dedup_state) (aps : list ap_row)
    : list decision * dedup_state :=
  match aps with
  | [] => ([], last_emit)
  | ap :: rest =>
      let '(d, st) := scan_row e now_iso now csv_path last_emit ap in
      let '(ds, st') := scan_rows e now_iso now csv_path st rest in
      (d :: ds, st')
  end.

(** A sequence of sightings of one key, by time: the answers of
    [should_emit] in order and the final dictionary. *)
Fixpoint emit_run (dedup_secs : Z) (last_emit : dedup_state)
    (key : dedup_key) (times : list Z) : list bool * dedup_state :=
  match times with
  | [] => ([], last_emit)
  | t :: ts =>
      let '(b, st) := should_emit dedup_secs last_emit key t in
      let '(bs, st') := emit_run dedup_secs st key ts in
      (b :: bs, st')
  end.

(** ** Locating the newest snapshot *)

(** A path yielded by [parent.glob(pattern)] with the modification time
    [p.stat().st_mtime] reports for it. *)
Record dir_entry := mk_entry {
  entry_path : string;
  entry_mtime : Z
}.

(** [sorted(candidates, key=mtime, reverse=True)]: the sort is stable, so
    entries with equal times keep their listing order. *)
Fixpoint insert_desc (x : dir_entry) (l : list dir_entry) : list dir_entry :=
  match l with
  | [] => [x]
  | y :: l' =>
      if (entry_mtime x <? entry_mtime y)%Z then y :: insert_desc x l'
      else x :: l
  end.

Definition sorted_desc (l : list dir_entry) : list dir_entry :=
  foldr insert_desc [] l.

(** [latest_csv], lines 115-122: [glob] is the directory listing, given
    the parent directory and the pattern. *)
Definition latest_csv (glob : string -> string -> list dir_entry)
    (parent stem : string) : option string :=
  match sorted_desc (glob parent (stem +:+ "-*.csv")) with
  | [] => None
  | c :: _ => Some (entry_path c)
  end.

(** ** The polling loop *)

(** What one iteration of the loop of [main] sees of the outside world:
    the directory listing, whether a path exists, what opening it gives,
    and the two clock readings of lines 272-273. *)
Record poll_env := mk_poll_env {
  env_glob : string -> string -> list dir_entry;
  env_exists : string -> bool;
  env_fs : file_system;
  env_now_iso : string;
  env_now : Z
}.

(** One iteration, lines 269-331: the decisions taken and the dictionary
    afterwards, or the exception that leaves the loop. *)
Definition poll_once (e : engine) (parent stem : string) (env : poll_env)
    (last_emit : dedup_state) : list decision * dedup_state + os_error :=
  match latest_csv (env_glob env) parent stem with
  | None => inl ([], last_emit)
  | Some csv_path =>
      if env_exists env csv_path then
        match parse_airodump_csv (env_fs env) csv_path with
        | inl aps =>
            inl (scan_rows e (env_now_iso env) (env_now env) csv_path
                           last_emit aps)
        | inr err => inr err
        end
      else inl ([], last_emit)
  end.

(** Successive iterations, one environment each, until an exception
    leaves the loop: the decisions of every completed iteration with its
    clock reading, the dictionary at the end, and the exception if any. *)
Fixpoint run_polls (e : engine) (parent stem : string)
    (last_emit : dedup_state) (envs : list poll_env)
    : list (Z * list decision) * dedup_state * option os_error :=
  match envs with
  | [] => ([], last_emit, None)
  | env :: rest =>
      match poll_once e parent stem env last_emit with
      | inr err => ([], last_emit, Some err)
      | inl (ds, st) =>
          let '(log, st', err) := run_polls e parent stem st rest in
          ((env_now env, ds) :: log, st', err)
      end
  end.

(** ** Name-pattern rules *)

(** A Python [dict] with string keys, in insertion order. *)
Module PyDict.

(** [d[k] = v]: an existing key keeps its place. *)
Fixpoint set {V} (d : list (string * V)) (k : string) (v : V)
    : list (string * V) :=
  match d with
  | [] => [(k, v)]
  | (k', v') :: d' =>
      if String.eqb k' k then (k', v) :: d' else (k', v') :: set d' k v
  end.

(** [d[k].append(x)] on a plain dictionary: [None] stands for the
    [KeyError] of a missing key. *)
Fixpoint append {V} (d : list (string * list V)) (k : string) (x : V)
    : option (list (string * list V)) :=
  match d with
  | [] => None
  | (k', l) :: d' =>
      if String.eqb k' k then Some ((k', l ++ [x])%list :: d')
      else cons (k', l) <$> append d' k x
  end.

(** [d[k]] on a [defaultdict(list)]: a missing key is entered with an
    empty list. *)
Fixpoint touch {V} (d : list (string * list V)) (k : string)
    : list (string * list V) :=
  match d with
  | [] => [(k, [])]
  | (k', l) :: d' =>
      if String.eqb k' k then d else (k', l) :: touch d' k
  end.

(** The list method [append] on the entry of an existing key. *)
Fixpoint push {V} (d : list (string * list V)) (k : string) (x : V)
    : list (string * list V) :=
  match d with
  | [] => []
  | (k', l) :: d' =>
      if String.eqb k' k then (k', l ++ [x])%list :: d'
      else (k', l) :: push d' k x
  end.

End PyDict.

(** The line boundaries of [str.splitlines] in the ASCII range: LF, VT,
    FF, CR, FS, GS and RS. *)
Definition is_linebreak (c : ascii) : bool :=
  let n := nat_of_ascii c in
  ((10 <=? n) && (n <=? 13) || (28 <=? n) && (n <=? 30))%nat.

(** [s.splitlines()]: CR LF is one boundary, and a final boundary opens
    no further line. *)
Fixpoint splitlines (s : string) : list string :=
  match s with
  | EmptyString => []
  | String c s' =>
      if is_linebreak c then
        EmptyString
          :: match s' with
             | String d s'' =>
                 if Ascii.eqb c "013" && Ascii.eqb d "010"
                 then splitlines s'' else splitlines s'
             | EmptyString => []
             end
      else
        match splitlines s' with
        | [] => [String c EmptyString]
        | l :: ls => String c l :: ls
        end
  end.

(** [c in s] for a one-character [c]. *)
Definition contains_char (c : ascii) (s : string) : bool :=
  negb (count c s =? 0)%nat.

(** [s.split(sep, 1)[0]]: the text before the first [sep]. *)
Fixpoint before_char (sep : ascii) (s : string) : string :=
  match s with
  | EmptyString => EmptyString
  | String c s' =>
      if Ascii.eqb c sep then EmptyString else String c (before_char sep s')
  end.

(** [s[1:]] *)
Definition drop_first (s : string) : string :=
  match s with EmptyString => EmptyString | String _ s' => s' end.

(** [s[:-1]] *)
Fixpoint drop_last (s : string) : string :=
  match s with
  | EmptyString => EmptyString
  | String c EmptyString => EmptyString
  | String c s' => String c (drop_last s')
  end.

(** [s.endswith(c)] for a one-character [c]. *)
Fixpoint endswith_char (c : ascii) (s : string) : bool :=
  match s with
  | EmptyString => false
  | String d EmptyString => Ascii.eqb d c
  | String _ s' => endswith_char c s'
  end.

(** The double and the single quote character. *)
Definition dquote : ascii := "034"%char.
Definition squote : ascii := "039"%char.

(** Lines 80-81: wrapping quotes are stripped. *)
Definition unquote (val : string) : string :=
  if (startswith (String dquote "") val && endswith_char dquote val)
     || (startswith (String squote "") val && endswith_char squote val)
  then drop_last (drop_first val)
  else val.

(** The state of the loop of [fallback_parse_ssid_yaml]: the dictionary
    [out] and the current [label]. *)
Abbreviation yaml_state :=
  (list (string * list string) * option string)%type.

(** Body of the loop, lines 71-82; [None] stands for a [KeyError] at
    line 82. *)
Definition yaml_step (st : yaml_state) (raw : string) : option yaml_state :=
  let '(out, label) := st in
  let line := strip raw in
  if negb (truthy line) || startswith "#" line then Some st
  else if contains_char ":" line && negb (startswith "-" line) then
    let label' := strip (before_char ":" line) in
    Some (PyDict.set out label' [], Some label')
  else if startswith "-" line && Runner.opt_truthy label then
    let val := unquote (strip (drop_first line)) in
    (fun out' => (out', label))
      <$> PyDict.append out (or_empty label) val
  else Some st.

(** The loop over the lines. *)
Fixpoint yaml_lines (st : yaml_state) (lines : list string)
    : option yaml_state :=
  match lines with
  | [] => Some st
  | raw :: rest =>
      match yaml_step st raw with
      | Some st' => yaml_lines st' rest
      | None => None
      end
  end.

(** [fallback_parse_ssid_yaml], lines 66-83. *)
Definition fallback_parse_ssid_yaml (text : string)
    : option (list (string * list string)) :=
  fst <$> yaml_lines ([], None) (splitlines text).

(** Body of the pattern loop of [load_ssid_rules], lines 99-103.  The
    entry of the label is created by [rules[label]] before [re.compile]
    runs; a pattern that does not compile is reported and dropped. *)
Definition compile_pattern (compile : string -> option pattern)
    (label : string)
    (st : ssid_rule_set * list (string * string)) (pat : string)
    : ssid_rule_set * list (string * string) :=
  let '(rules, warnings) := st in
  let rules := PyDict.touch rules label in
  match compile pat with
  | Some rx => (PyDict.push rules label rx, warnings)
  | None => (rules, (warnings ++ [(label, pat)])%list)
  end.

(** The label loop, lines 96-103: the rules and the warnings printed. *)
Definition compile_rules (compile : string -> option pattern)
    (obj : list (string * list string))
    : ssid_rule_set * list (string * string) :=
  fold_left
    (fun st entry =>
       if nonempty entry.2
       then fold_left (compile_pattern compile entry.1) entry.2 st
       else st)
    obj ([], []).

(** ** The vendor-prefix validator, [tools/validate_ouis.py] *)

(** The pairs [csv.DictReader] makes of a line: each field name with its
    value, and [None] for the names the line is too short for; values
    beyond the last name are filed under a key no code here reads. *)
Fixpoint zip_fields (fieldnames : list string) (row : csv_row)
    : list (string * option string) :=
  match fieldnames, row with
  | [], _ => []
  | k :: ks, [] => (k, None) :: zip_fields ks []
  | k :: ks, v :: vs => (k, Some v) :: zip_fields ks vs
  end.

(** The dictionary of a line: with a repeated field name the last
    occurrence wins. *)
Definition dict_of_row (fieldnames : list string) (row : csv_row)
    : dict_row :=
  fold_left (fun d kv => <[kv.1 := kv.2]> d) (zip_fields fieldnames row) ∅.

(** [csv.DictReader(f)] over the lines of a file: the field names, [None]
    for an empty file, and the dictionaries of the lines after the first,
    blank lines skipped. *)
Definition dict_reader (lines : list csv_row)
    : option (list string) * list dict_row :=
  match lines with
  | [] => (None, [])
  | header :: rest =>
      (Some header,
       map (dict_of_row header)
           (List.filter (fun row => nonempty row) rest))
  end.

(** What [check_csv] prints. *)
Inductive diag :=
  | BadColumns
  | MissingRequired (i : nat)
  | BadFormat (i : nat) (oui : string)
  | DuplicateOui (i : nat) (oui : string)
  | UrlWarning (i : nat) (url : string).

(** The state of the row loop: the error count, the set [seen] and the
    messages so far. *)
Record check_state := mk_check {
  errs : nat;
  seen : gset string;
  diags : list diag
}.

(** Body of the row loop, lines 18-34.  Every field name is a key of a
    row of the reader, so the lookups of lines 18-20 cannot fail. *)
Definition check_row (st : check_state) (i : nat) (row : dict_row)
    : check_state :=
  let v := strip (or_empty (row_get row "vendor")) in
  let o := replace "-" ":" (upper (strip (or_empty (row_get row "oui")))) in
  let s := strip (or_empty (row_get row "source_url")) in
  if negb (truthy v) || negb (truthy o) then
    mk_check (errs st + 1) (seen st) (diags st ++ [MissingRequired i])
  else
    let parts := split ":" o in
    let st1 :=
      if negb (length parts =? 3)%nat
         || existsb (fun p => negb (String.length p =? 2)%nat) parts
      then mk_check (errs st + 1) (seen st) (diags st ++ [BadFormat i o])
      else st in
    let st2 :=
      if bool_decide (o ∈ seen st1)
      then mk_check (errs st1 + 1) (seen st1)
                    (diags st1 ++ [DuplicateOui i o])
      else st1 in
    let st3 := mk_check (errs st2) ({[ o ]} ∪ seen st2) (diags st2) in
    if truthy s
       && negb (startswith "http://" s || startswith "https://" s)
    then mk_check (errs st3) (seen st3) (diags st3 ++ [UrlWarning i s])
    else st3.

(** The loop with its counter, [enumerate(r, start=2)]. *)
Fixpoint check_rows (st : check_state) (i : nat) (rows : list dict_row)
    : check_state :=
  match rows with
  | [] => st
  | row :: rest => check_rows (check_row st i row) (S i) rest
  end.

(** The columns [check_csv] asks for. *)
Definition required_columns : gset string :=
  {[ "vendor"; "oui"; "source_url"; "notes" ]}.

(** [check_csv], lines 8-35: the error count and the messages, or [None]
    for the [TypeError] of [set(None)] on a file without a first line. *)
Definition check_csv (lines : list csv_row) : option (nat * list diag) :=
  match dict_reader lines with
  | (None, _) => None
  | (Some fieldnames, rows) =>
      if bool_decide (list_to_set fieldnames = required_columns)
      then let st := check_rows (mk_check 0 ∅ []) 2 rows in
           Some (errs st, diags st)
      else Some (1, [BadColumns])
  end.

(** [main] of the validator, lines 37-45: the exit status, or [None] when
    the [TypeError] of an empty file leaves it.  [files] gives the lines
    of each file of the data directory that exists. *)
Definition validate_main (files : string -> option (list csv_row))
    : option nat :=
  let check name total :=
    match files name with
    | None => Some total
    | Some lines => (fun r => total + r.1) <$> check_csv lines
    end in
  match check "oui_drones.csv" 0 with
  | None => None
  | Some total =>
      match check "oui_modules.csv" total with
      | None => None
      | Some total => Some (if (total =? 0)%nat then 0 else 1)
      end
  end.

(** * Vocabulary of the properties *)

(** A hexadecimal digit of either case. *)
Definition is_hex (c : ascii) : bool :=
  let n := nat_of_ascii c in
  ((48 <=? n) && (n <=? 57) || (65 <=? n) && (n <=? 70)
   || (97 <=? n) && (n <=? 102))%nat.

(** A digit or an uppercase hexadecimal letter. *)
Definition is_upper_hex (c : ascii) : bool :=
  let n := nat_of_ascii c in
  ((48 <=? n) && (n <=? 57) || (65 <=? n) && (n <=? 70))%nat.

(** The two separator styles of a written hardware address. *)
Definition is_sep (c : ascii) : bool :=
  Ascii.eqb c ":" || Ascii.eqb c "-".

(** An octet as written: two hexadecimal digits of either case. *)
Definition is_octet (o : string) : bool :=
  (String.length o =? 2)%nat && all_chars is_hex o.

(** A hardware address as written: six octets and five separators. *)
Definition mac_text (o1 : string) (s1 : ascii) (o2 : string) (s2 : ascii)
    (o3 : string) (s3 : ascii) (o4 : string) (s4 : ascii)
    (o5 : string) (s5 : ascii) (o6 : string) : string :=
  o1 +:+ String s1 (o2 +:+ String s2 (o3 +:+ String s3
    (o4 +:+ String s4 (o5 +:+ String s5 o6)))).

(** The canonical prefix form [XX:XX:XX]: uppercase hexadecimal digits. *)
Definition canonical_oui (s : string) : bool :=
  match s with
  | String a1 (String a2 (String c1 (String b1 (String b2 (String c2
      (String d1 (String d2 EmptyString))))))) =>
      is_upper_hex a1 && is_upper_hex a2 && Ascii.eqb c1 ":"
      && is_upper_hex b1 && is_upper_hex b2 && Ascii.eqb c2 ":"
      && is_upper_hex d1 && is_upper_hex d2
  | _ => false
  end.

(** Times that never run backwards, starting no earlier than [lo]. *)
Fixpoint nondecreasing_from (lo : Z) (ts : list Z) : Prop :=
  match ts with
  | [] => True
  | t :: ts' => (lo <= t)%Z /\ nondecreasing_from t ts'
  end.

(** What [scan_row] decided, without the payload. *)
Definition verdict (d : decision) : option (bool * severity) :=
  match d with
  | Skipped | NoMatch => None
  | Suppressed sev => Some (false, sev)
  | Emitted a => Some (true, a_severity a)
  end.

(** A decision with the two signal fields of its payload blanked. *)
Definition forget_signal (d : decision) : decision :=
  match d with
  | Emitted a =>
      Emitted (mk_alert (a_time a) (a_severity a) (a_bssid a) "" ""
                        (a_ssid a) (a_oui a) (a_ssid_labels a)
                        (a_source a) (a_csv a))
  | _ => d
  end.

(** A small rule set and some sightings used as running examples. *)
Definition demo_engine : engine :=
  {| ouis := {[ "AA:BB:CC" ]};
     ssid_rules := [("dji", [fun s => startswith "DJI" (upper s)])];
     dedup_secs := 120 |}.

Definition demo_ap (mac name ch pwr : string) : ap_row :=
  mk_ap_row mac name ch pwr "2024-01-01 00:00:00" "2024-01-01 00:00:05".

(** A character that can occur in a group of a loaded prefix: anything
    but a lowercase letter, a colon or a dash. *)
Definition group_char (c : ascii) : bool :=
  negb (islower c) && negb (Ascii.eqb c ":") && negb (Ascii.eqb c "-").

(** Three colon-separated groups of two [group_char]s. *)
Definition oui_shape (s : string) : bool :=
  match s with
  | String a1 (String a2 (String c1 (String b1 (String b2 (String c2
      (String d1 (String d2 EmptyString))))))) =>
      group_char a1 && group_char a2 && Ascii.eqb c1 ":"
      && group_char b1 && group_char b2 && Ascii.eqb c2 ":"
      && group_char d1 && group_char d2
  | _ => false
  end.

(** A data directory whose only file has one row, with the given [oui]
    cell. *)
Definition one_row_data (cell : string) : data_dir :=
  fun name =>
    if String.eqb name "oui_drones.csv"
    then Some [ {[ "oui" := Some cell ]} ]
    else None.

(** A character that can be left by uppercasing and turning dashes
    into colons. *)
Definition norm_char (c : ascii) : bool :=
  negb (islower c) && negb (Ascii.eqb c "-").

(** A row inside the table that becomes a record: not a header row and
    at least 14 columns. *)
Definition is_data_row (row : csv_row) : bool :=
  negb (is_header_row row) && (14 <=? length row)%nat.

(** The records of the rows of a table body. *)
Definition records_of (body : list csv_row) : list ap_row :=
  map ap_of_row (List.filter is_data_row body).

(** The header test as the specification words it: the first field
    equals the marker, letter case aside. *)
Definition first_field_is_marker (row : csv_row) : bool :=
  String.eqb (upper (col row 0)) "BSSID".

(** A fourteen-column data row. *)
Definition demo_data_row : csv_row :=
  ["aa:bb:cc:11:22:33"; " 2024-01-01 00:00:00"; " 2024-01-01 00:00:05";
   " 6"; " 54"; " WPA2"; " CCMP"; " PSK"; " -40"; " 10"; " 0";
   " 0.0.0.0"; " 7"; " Generic"; " "].

(** A snapshot whose table opens with a row starting [BSSIDs]. *)
Definition plural_header_rows : list csv_row :=
  [ ["BSSIDs"; " First time seen"]; demo_data_row ].


(** A character-wise map over a string. *)
Fixpoint map_chars (f : ascii -> ascii) (s : string) : string :=
  match s with
  | EmptyString => EmptyString
  | String c s' => String (f c) (map_chars f s')
  end.

(** The text [load_ouis] derives from a row, line 60. *)
Definition normal_cell (row : dict_row) : string :=
  replace "-" ":" (upper (strip (or_empty (row_get row "oui")))).

(** The test of line 62 on the derived text. *)
Definition well_shaped (oui : string) : bool :=
  (length (split ":" oui) =? 3)%nat
  && forallb (fun x => (String.length x =? 2)%nat) (split ":" oui).

(** The files [load_ouis] reads, lines 50-52. *)
Definition oui_sources (include_modules : bool) : list string :=
  (["oui_drones.csv"]
     ++ (if include_modules then ["oui_modules.csv"] else []))%list.

(** The calls [stop] makes on a running child, by what the operating
    system answers. *)
Definition expected_calls (os : Runner.os_behaviour)
    : list Runner.sys_call :=
  match Runner.terminate_raises os with
  | Some _ => [Runner.Terminate]
  | None =>
      match Runner.wait_raises os with
      | Some Runner.TimeoutExpired =>
          [Runner.Terminate; Runner.Wait; Runner.Kill]
      | _ => [Runner.Terminate; Runner.Wait]
      end
  end.

(** The de-duplication key of an emitted payload. *)
Definition alert_key (a : alert) : dedup_key :=
  (a_severity a, default "" (a_oui a), default "" (a_ssid a)).

(** The emission a decision stands for, if any, at the given time. *)
Definition emission (now : Z) (d : decision) : option (Z * dedup_key) :=
  match d with
  | Emitted a => Some (now, alert_key a)
  | _ => None
  end.

Definition emissions (now : Z) (ds : list decision)
    : list (Z * dedup_key) :=
  omap (emission now) ds.

(** The emissions of a whole run, in order. *)
Definition log_emissions (log : list (Z * list decision))
    : list (Z * dedup_key) :=
  flat_map (fun p => emissions p.1 p.2) log.

(** Every emission of the log comes at least [w] after the previous
    emission of the same key, or after the time [last] holds for it. *)
Fixpoint spaced (w : Z) (last : dedup_state) (log : list (Z * dedup_key))
    : Prop :=
  match log with
  | [] => True
  | (t, k) :: rest =>
      (w <= t - default 0 (last !! k))%Z /\ spaced w (<[k := t]> last) rest
  end.

(** The dictionary after recording the emissions of a log. *)
Definition replay (last : dedup_state) (log : list (Z * dedup_key))
    : dedup_state :=
  fold_left (fun st tk => <[tk.2 := tk.1]> st) log last.

Definition no_linebreak (s : string) : bool :=
  all_chars (fun c => negb (is_linebreak c)) s.

(** A label that can be written on a line of its own. *)
Definition clean_label (l : string) : Prop :=
  l ≠ "" /\ strip l = l /\ count ":" l = 0
  /\ startswith "-" l = false /\ startswith "#" l = false
  /\ no_linebreak l = true.

(** A rule document written out: each label on a line ending in a colon,
    each pattern as an indented list item in double quotes. *)
Definition render_item (p : string) : string :=
  "  - " +:+ String dquote (p +:+ String dquote "").

Definition render_lines (rules : list (string * list string)) : list string :=
  flat_map (fun e => (e.1 +:+ ":") :: map render_item e.2) rules.

Definition render_text (rules : list (string * list string)) : string :=
  join (String "010" "") (render_lines rules).

(** The patterns of a list that do not compile. *)
Definition failed (compile : string -> option pattern)
    (pats : list string) : list string :=
  List.filter (fun p => negb (bool_decide (is_Some (compile p)))) pats.

(** A row the validator accepts on its own: vendor and prefix present
    and the prefix of the shape [XX:XX:XX]. *)
Definition row_ok (row : dict_row) : bool :=
  truthy (strip (or_empty (row_get row "vendor")))
  && truthy (normal_cell row)
  && well_shaped (normal_cell row).

(** An error message, as opposed to a warning. *)
Definition is_error (d : diag) : bool :=
  match d with UrlWarning _ _ => false | _ => true end.

(** A row without vendor or without prefix, line 21. *)
Definition row_missing (row : dict_row) : bool :=
  negb (truthy (strip (or_empty (row_get row "vendor"))))
  || negb (truthy (normal_cell row)).

(** The errors the validator counts for a row, given the prefixes seen
    before it. *)
Definition row_errors (sn : gset string) (row : dict_row) : nat :=
  if row_missing row then 1
  else (if well_shaped (normal_cell row) then 0 else 1)
       + (if bool_decide (normal_cell row ∈ sn) then 1 else 0).

(** A data file the validator finds no error in; a missing file counts. *)
Definition file_clean (files : string -> option (list csv_row))
    (name : string) : Prop :=
  match files name with
  | None => True
  | Some lines => exists ds, check_csv lines = Some (0, ds)
  end.

(** A data directory holding the validated file as its only source. *)
Definition only_drones (rows : list dict_row) : data_dir :=
  fun name => if String.eqb name "oui_drones.csv" then Some rows else None.

(** * Properties *)

(** ** Characters *)

(** Case analysis over the 256 characters. *)
Ltac all_ascii c :=
  destruct c as [[] [] [] [] [] [] [] []]; vm_compute; try reflexivity;
  try discriminate; auto.

Lemma replace_upper_not_lower c :
  islower (replace_char "-" ":" (upper_char c)) = false.
Proof. all_ascii c. Qed.

Lemma replace_not_dash c : Ascii.eqb (replace_char "-" ":" c) "-" = false.
Proof. all_ascii c. Qed.

Lemma hex_upper c : is_hex c = true -> is_upper_hex (upper_char c) = true.
Proof. all_ascii c. Qed.

Lemma hex_not_space c : is_hex c = true -> isspace c = false.
Proof. all_ascii c. Qed.

Lemma sep_normal c :
  is_sep c = true -> replace_char "-" ":" (upper_char c) = ":"%char.
Proof. all_ascii c. Qed.

Lemma hex_norm c :
  is_hex c = true -> replace_char "-" ":" (upper_char c) = upper_char c.
Proof. all_ascii c. Qed.

Lemma hex_upper_not_colon c :
  is_hex c = true -> Ascii.eqb (upper_char c) ":" = false.
Proof. all_ascii c. Qed.

(** ** Strings *)

Lemma rstrip_blank r : all_chars isspace r = true -> rstrip r = "".
Proof.
  induction r as [|c r IH]; simpl; [reflexivity|].
  intros [Hc Hr]%andb_true_iff. rewrite (IH Hr), Hc. reflexivity.
Qed.

Lemma lstrip_blank_app l s :
  all_chars isspace l = true -> lstrip (l +:+ s) = lstrip s.
Proof.
  induction l as [|c l IH]; simpl; [reflexivity|].
  intros [Hc Hl]%andb_true_iff. rewrite Hc. exact (IH Hl).
Qed.

Lemma rstrip_app_blank s r :
  all_chars isspace r = true -> rstrip (s +:+ r) = rstrip s.
Proof.
  intros Hr. induction s as [|c s IH]; simpl.
  - apply rstrip_blank, Hr.
  - rewrite IH. reflexivity.
Qed.

Lemma strip_padded l c s r :
  all_chars isspace l = true -> all_chars isspace r = true ->
  isspace c = false -> rstrip (String c s) = String c s ->
  strip (l +:+ String c s +:+ r) = String c s.
Proof.
  intros Hl Hr Hc Hs. unfold strip.
  rewrite (lstrip_blank_app _ _ Hl).
  change (String c s +:+ r) with (String c (s +:+ r)).
  cbn [lstrip]. rewrite Hc.
  change (String c (s +:+ r)) with (String c s +:+ r).
  rewrite (rstrip_app_blank _ _ Hr). exact Hs.
Qed.

Lemma is_octet_inv o :
  is_octet o = true ->
  exists a b, o = String a (String b "")
              /\ is_hex a = true /\ is_hex b = true.
Proof.
  unfold is_octet. destruct o as [|a [|b [|c o]]]; simpl; try discriminate.
  rewrite andb_true_r. intros [Ha Hb]%andb_true_iff. eauto.
Qed.

(** ** Prefix extraction *)

Example mac_to_oui_colon : mac_to_oui "aa:bb:cc:11:22:33" = "AA:BB:CC".
Proof. reflexivity. Qed.

Example mac_to_oui_dash : mac_to_oui " aa-Bb-cC-11-22-33 " = "AA:BB:CC".
Proof. reflexivity. Qed.

Example mac_to_oui_short : mac_to_oui "aa:bb:cc" = "".
Proof. reflexivity. Qed.

Ltac use_hex :=
  repeat match goal with
    | H : is_hex ?c = true
      |- context [replace_char "-" ":" (upper_char ?c)] =>
        rewrite (hex_norm c H)
    | H : is_sep ?c = true
      |- context [replace_char "-" ":" (upper_char ?c)] =>
        rewrite (sep_normal c H)
    | H : is_hex ?c = true |- context [Ascii.eqb (upper_char ?c) ":"] =>
        rewrite (hex_upper_not_colon c H)
    | H : is_hex ?c = true |- context [isspace ?c] =>
        rewrite (hex_not_space c H)
    | H : is_hex ?c = true |- context [is_upper_hex (upper_char ?c)] =>
        rewrite (hex_upper c H)
    end.

(** C5. For a hardware address written as six octets of hexadecimal
    digits in any letter case, joined by colons or dashes in any mix and
    possibly surrounded by blanks, [mac_to_oui] returns the first three
    octets in uppercase joined by colons, and that text has the canonical
    form [XX:XX:XX].  The result depends on the input only through the
    uppercased first three octets, so it is the same for every separator
    style and letter case. *)
Theorem mac_to_oui_canonical
    (l r o1 o2 o3 o4 o5 o6 : string) (s1 s2 s3 s4 s5 : ascii) :
  all_chars isspace l = true -> all_chars isspace r = true ->
  Forall (fun o => is_octet o = true) [o1; o2; o3; o4; o5; o6] ->
  Forall (fun s => is_sep s = true) [s1; s2; s3; s4; s5] ->
  mac_to_oui (l +:+ mac_text o1 s1 o2 s2 o3 s3 o4 s4 o5 s5 o6 +:+ r)
    = upper o1 +:+ ":" +:+ upper o2 +:+ ":" +:+ upper o3
  /\ canonical_oui (upper o1 +:+ ":" +:+ upper o2 +:+ ":" +:+ upper o3)
     = true.
Proof.
  intros Hl Hr Ho Hs.
  repeat match goal with
         | H : Forall _ (_ :: _) |- _ => apply Forall_cons_1 in H; destruct H
         end.
  repeat match goal with
         | H : is_octet _ = true |- _ =>
             apply is_octet_inv in H;
             destruct H as (? & ? & -> & ? & ?)
         end.
  split.
  - unfold mac_to_oui.
    match goal with
    | |- context [strip (l +:+ ?b +:+ r)] =>
        let body := eval cbv [mac_text String.append] in b in
        change b with body
    end.
    rewrite strip_padded; auto using hex_not_space.
    + cbn [upper replace]. use_hex.
      cbn [String.length Nat.eqb negb orb count]. use_hex.
      cbn [Ascii.eqb Bool.eqb Nat.add Nat.eqb negb orb split]. use_hex.
      reflexivity.
    + cbn [rstrip]. use_hex. reflexivity.
  - cbv [upper String.append canonical_oui]. use_hex. reflexivity.
Qed.

Lemma mac_to_oui_canonical_witness :
  mac_to_oui (" " +:+ mac_text "aa" "-" "Bb" ":" "c0" "-" "11" ":" "2d" "-" "3F"
                +:+ " ")
    = "AA:BB:C0"
  /\ canonical_oui "AA:BB:C0" = true.
Proof.
  apply (mac_to_oui_canonical " " " " "aa" "Bb" "c0" "11" "2d" "3F"
           "-" ":" "-" ":" "-");
    repeat constructor.
Defined.

(** ** De-duplication *)

Lemma should_emit_true (w : Z) (st : dedup_state) (k : dedup_key) (t : Z) :
  (w <= t - default 0 (st !! k))%Z ->
  should_emit w st k t = (true, <[k := t]> st).
Proof.
  intros H. unfold should_emit.
  destruct (Z.leb_spec w (t - default 0%Z (st !! k))); [reflexivity | lia].
Qed.

Lemma should_emit_false (w : Z) (st : dedup_state) (k : dedup_key) (t : Z) :
  (t - default 0 (st !! k) < w)%Z ->
  should_emit w st k t = (false, st).
Proof.
  intros H. unfold should_emit.
  destruct (Z.leb_spec w (t - default 0%Z (st !! k))); [lia | reflexivity].
Qed.

Lemma last_emit_after (st : dedup_state) (k : dedup_key) (t : Z) :
  default 0%Z (<[k := t]> st !! k) = t.
Proof. by rewrite lookup_insert_eq. Qed.

(** Sightings of an already emitted key that all fall inside the window
    are all suppressed and leave the dictionary alone. *)
Lemma emit_run_inside_window (w : Z) (st : dedup_state) (k : dedup_key)
    (t : Z) (ts : list Z) :
  Forall (fun t' => t' - t < w)%Z ts ->
  emit_run w (<[k := t]> st) k ts
  = (map (fun _ => false) ts, <[k := t]> st).
Proof.
  induction 1 as [|t' ts Ht' _ IH]; simpl; [reflexivity|].
  rewrite should_emit_false by (rewrite last_emit_after; exact Ht').
  rewrite IH. reflexivity.
Qed.

Lemma emit_run_window_zero (st : dedup_state) (k : dedup_key) (ts : list Z) :
  nondecreasing_from (default 0%Z (st !! k)) ts ->
  (emit_run 0 st k ts).1 = map (fun _ => true) ts.
Proof.
  revert st. induction ts as [|t ts IH]; intros st; simpl; [reflexivity|].
  intros [Hle Hts].
  rewrite should_emit_true by lia.
  specialize (IH (<[k := t]> st)). rewrite last_emit_after in IH.
  specialize (IH Hts).
  destruct (emit_run 0 (<[k := t]> st) k ts) as [bs st'].
  simpl in *. by rewrite IH.
Qed.

(** C1. [should_emit] answers true exactly when the current time minus the
    key's last recorded emission time (0 for a key never emitted) is at
    least the window.  On a true answer the key's time becomes the current
    time and no other key changes; on a false answer the dictionary is
    unchanged.  Hence after an emission every sighting of the same key
    that falls inside the window is suppressed, a sighting at or beyond the
    window emits again, and with a window of 0 every sighting of a run of
    times that does not go backwards emits. *)
Theorem should_emit_dedup (w : Z) (st : dedup_state) (k : dedup_key) (t : Z) :
  let prev := default 0%Z (st !! k) in
  ((should_emit w st k t).1 = true <-> (w <= t - prev)%Z)
  /\ ((w <= t - prev)%Z ->
      (should_emit w st k t).2 = <[k := t]> st
      /\ (should_emit w st k t).2 !! k = Some t
      /\ forall k', k' ≠ k -> (should_emit w st k t).2 !! k' = st !! k')
  /\ ((t - prev < w)%Z -> should_emit w st k t = (false, st))
  /\ (forall ts : list Z,
        Forall (fun t' => t' - t < w)%Z ts ->
        emit_run w (<[k := t]> st) k ts
        = (map (fun _ => false) ts, <[k := t]> st))
  /\ (forall t' : Z,
        (w <= t' - t)%Z ->
        should_emit w (<[k := t]> st) k t'
        = (true, <[k := t']> (<[k := t]> st)))
  /\ (forall ts : list Z,
        nondecreasing_from prev ts ->
        (emit_run 0 st k ts).1 = map (fun _ => true) ts).
Proof.
  intros prev. subst prev. repeat split.
  - unfold should_emit.
    destruct (Z.leb_spec w (t - default 0%Z (st !! k))); simpl;
      [intros _; assumption | discriminate].
  - intros H. by rewrite should_emit_true.
  - by rewrite should_emit_true.
  - rewrite should_emit_true by assumption. apply lookup_insert_eq.
  - intros k' Hk'. rewrite should_emit_true by assumption.
    by apply lookup_insert_ne.
  - apply should_emit_false.
  - apply emit_run_inside_window.
  - intros t' Ht'. apply should_emit_true. by rewrite last_emit_after.
  - apply emit_run_window_zero.
Qed.

Example dedup_scenario :
  emit_run 120 ∅ (OUI_MATCH, "AA:BB:CC", "Generic")
           [1000; 1002; 1119; 1120; 1121]%Z
  = ([true; false; false; true; false],
     {[ (OUI_MATCH, "AA:BB:CC", "Generic") := 1120%Z ]}).
Proof. vm_compute. reflexivity. Qed.

(** ** Severity assignment *)

Lemma nonempty_true {A} (l : list A) : nonempty l = true <-> l ≠ [].
Proof. destruct l; simpl; split; congruence. Qed.

Lemma truthy_true (s : string) : truthy s = true <-> s ≠ "".
Proof. destruct s; simpl; split; congruence. Qed.

Lemma classify_cases (hit : bool) (labels : list string) :
  classify hit labels
  = match hit, nonempty labels with
    | true, true => Some DRONE_CONFIRMED
    | true, false => Some OUI_MATCH
    | false, true => Some SSID_MATCH
    | false, false => None
    end.
Proof. unfold classify. by destruct hit, (nonempty labels). Qed.

Lemma oui_hit_of_true (known : gset string) (oui : string) :
  oui_hit_of known oui = true <-> oui ≠ "" /\ oui ∈ known.
Proof.
  unfold oui_hit_of. destruct oui as [|c oui]; simpl.
  - split; [discriminate | intros [[] _]; reflexivity].
  - rewrite bool_decide_eq_true. split; [intros H; split; [discriminate|exact H] | intros [_ H]; exact H].
Qed.

Lemma ssid_hits_of_nonempty (rules : ssid_rule_set) (name : string) :
  ssid_hits_of rules name ≠ []
  <-> name ≠ ""
      /\ exists label rxs (rx : pattern),
           In (label, rxs) rules /\ In rx rxs /\ rx name = true.
Proof.
  unfold ssid_hits_of. destruct name as [|c name]; simpl.
  - split; [congruence | intros [[] _]; reflexivity].
  - set (nm := String c name).
    split.
    + intros Hne. split; [discriminate|].
      destruct (List.filter _ rules) as [|[label rxs] rest] eqn:Hf;
        [by destruct Hne|].
      assert (Hin : In (label, rxs) (List.filter
                (fun rule => existsb (fun rx : pattern => rx nm) rule.2)
                rules)) by (rewrite Hf; left; reflexivity).
      apply List.filter_In in Hin as [Hin Hex].
      apply existsb_exists in Hex as (rx & Hrx & Hm).
      exists label, rxs, rx. auto.
    + intros [_ (label & rxs & rx & Hin & Hrx & Hm)] Hnil.
      assert (Hf : In (label, rxs) (List.filter
                (fun rule => existsb (fun rx : pattern => rx nm) rule.2)
                rules)).
      { apply List.filter_In. split; [exact Hin|].
        apply existsb_exists. exists rx. auto. }
      apply (List.in_map fst) in Hf. rewrite Hnil in Hf. destruct Hf.
Qed.

Lemma scan_row_severity (e : engine) (now_iso : string) (now : Z)
    (csv_path : string) (st : dedup_state) (ap : ap_row) :
  bssid ap ≠ "" ->
  snd <$> verdict (scan_row e now_iso now csv_path st ap).1
  = severity_of e ap
  /\ ((scan_row e now_iso now csv_path st ap).1 = Skipped -> False)
  /\ (severity_of e ap = None ->
      scan_row e now_iso now csv_path st ap = (NoMatch, st)).
Proof.
  intros Hb. unfold scan_row, severity_of.
  apply truthy_true in Hb. rewrite Hb. simpl.
  destruct (classify _ _) as [sev|]; simpl.
  - destruct (should_emit _ _ _ _) as [[] st']; simpl;
      repeat split; discriminate.
  - repeat split; discriminate.
Qed.

(** C2. For a record with a non-empty hardware address: when the vendor
    prefix is a hit and some label matched, the severity is
    DRONE_CONFIRMED; a hit alone gives OUI_MATCH; matched labels alone
    give SSID_MATCH; neither gives no severity, and then the loop emits
    nothing and leaves the de-duplication dictionary alone.  The severity
    the loop attaches to its decision is that one.  A label matches when
    the name is non-empty and one of the label's patterns finds a match in
    it; the prefix is a hit when it is non-empty and in the loaded set. *)
Theorem severity_assignment (e : engine) (ap : ap_row)
    (now_iso : string) (now : Z) (csv_path : string) (st : dedup_state) :
  bssid ap ≠ "" ->
  let hit := oui_hit_of (ouis e) (mac_to_oui (bssid ap)) in
  let labels := ssid_hits_of (ssid_rules e) (essid ap) in
  (hit = true -> labels ≠ [] -> severity_of e ap = Some DRONE_CONFIRMED)
  /\ (hit = true -> labels = [] -> severity_of e ap = Some OUI_MATCH)
  /\ (hit = false -> labels ≠ [] -> severity_of e ap = Some SSID_MATCH)
  /\ (hit = false -> labels = [] ->
      severity_of e ap = None
      /\ scan_row e now_iso now csv_path st ap = (NoMatch, st))
  /\ snd <$> verdict (scan_row e now_iso now csv_path st ap).1
     = severity_of e ap
  /\ (labels ≠ [] <->
      essid ap ≠ ""
      /\ exists label rxs (rx : pattern),
           In (label, rxs) (ssid_rules e) /\ In rx rxs
           /\ rx (essid ap) = true)
  /\ (hit = true <->
      mac_to_oui (bssid ap) ≠ "" /\ mac_to_oui (bssid ap) ∈ ouis e).
Proof.
  intros Hb hit labels.
  assert (Hsev : severity_of e ap = classify hit labels) by reflexivity.
  rewrite classify_cases in Hsev.
  destruct (scan_row_severity e now_iso now csv_path st ap Hb)
    as (Hv & _ & Hnone).
  split; [|split; [|split; [|split; [|split; [|split]]]]].
  - intros Hh Hl%nonempty_true. by rewrite Hh, Hl in Hsev.
  - intros Hh Hl. by rewrite Hh, Hl in Hsev.
  - intros Hh Hl%nonempty_true. by rewrite Hh, Hl in Hsev.
  - intros Hh Hl. rewrite Hh, Hl in Hsev. split; [exact Hsev|].
    apply Hnone, Hsev.
  - exact Hv.
  - apply ssid_hits_of_nonempty.
  - apply oui_hit_of_true.
Qed.

Lemma severity_assignment_witness :
  severity_of demo_engine (demo_ap "AA:BB:CC:11:22:33" "DJI-Mavic-1234" "6" "-40")
  = Some DRONE_CONFIRMED.
Proof.
  assert (Hb : bssid (demo_ap "AA:BB:CC:11:22:33" "DJI-Mavic-1234" "6" "-40")
               ≠ "") by discriminate.
  destruct (severity_assignment demo_engine
              (demo_ap "AA:BB:CC:11:22:33" "DJI-Mavic-1234" "6" "-40")
              "2024-01-01T00:00:05Z" 1000 "scan-01.csv" ∅ Hb) as [H _].
  apply H; [vm_compute; reflexivity | discriminate].
Defined.




(** ** Channel and power *)

(** C6. Two records with the same address and the same name get the same
    decision from the same rule sets, clock and de-duplication dictionary,
    whatever their channel and power: the decisions differ at most in the
    channel and power fields of an emitted payload, and the dictionary
    afterwards is the same.  In particular, once one of them has been
    emitted, a sighting of the other inside the window is suppressed and
    leaves the dictionary alone. *)
Theorem decision_ignores_signal (e : engine) (now_iso : string) (now : Z)
    (csv_path : string) (st : dedup_state) (ap1 ap2 : ap_row) :
  bssid ap1 = bssid ap2 -> essid ap1 = essid ap2 ->
  forget_signal (scan_row e now_iso now csv_path st ap1).1
  = forget_signal (scan_row e now_iso now csv_path st ap2).1
  /\ (scan_row e now_iso now csv_path st ap1).2
     = (scan_row e now_iso now csv_path st ap2).2
  /\ forall a1 now_iso' now' csv_path',
       (scan_row e now_iso now csv_path st ap1).1 = Emitted a1 ->
       (now' - now < dedup_secs e)%Z ->
       scan_row e now_iso' now' csv_path'
                (scan_row e now_iso now csv_path st ap1).2 ap2
       = (Suppressed (a_severity a1),
          (scan_row e now_iso now csv_path st ap1).2).
Proof.
  intros Hb He.
  destruct ap1 as [b1 n1 c1 p1 f1 l1], ap2 as [b2 n2 c2 p2 f2 l2].
  simpl in Hb, He. subst b2 n2.
  unfold scan_row; simpl.
  destruct (truthy b1); simpl; [|split; [reflexivity|split; [reflexivity|]];
                                 intros; discriminate].
  destruct (classify _ _) as [sev|]; simpl;
    [|split; [reflexivity|split; [reflexivity|]]; intros; discriminate].
  set (key := (sev, (if oui_hit_of (ouis e) (mac_to_oui b1)
                     then mac_to_oui b1 else ""), n1)).
  destruct (Z.leb_spec (dedup_secs e) (now - default 0%Z (st !! key)))
    as [Hle|Hlt].
  - rewrite !(should_emit_true _ _ _ _ Hle). simpl.
    split; [reflexivity|]. split; [reflexivity|].
    intros a1 now_iso' now' csv_path' Ha Hin.
    injection Ha as <-. simpl.
    rewrite should_emit_false by (rewrite last_emit_after; exact Hin).
    reflexivity.
  - rewrite !(should_emit_false _ _ _ _ Hlt). simpl.
    split; [reflexivity|]. split; [reflexivity|]. intros; discriminate.
Qed.

Lemma decision_ignores_signal_witness :
  (scan_row demo_engine "2024-01-01T00:00:05Z" 1000 "scan-01.csv" ∅
            (demo_ap "AA:BB:CC:11:22:33" "Generic" "1" "-40")).2
  = (scan_row demo_engine "2024-01-01T00:00:05Z" 1000 "scan-01.csv" ∅
              (demo_ap "AA:BB:CC:11:22:33" "Generic" "11" "-83")).2.
Proof.
  destruct (decision_ignores_signal demo_engine "2024-01-01T00:00:05Z" 1000
              "scan-01.csv" ∅
              (demo_ap "AA:BB:CC:11:22:33" "Generic" "1" "-40")
              (demo_ap "AA:BB:CC:11:22:33" "Generic" "11" "-83")
              eq_refl eq_refl) as (_ & H & _).
  exact H.
Defined.

(** ** Vendor prefixes *)

Lemma norm_chars (s : string) :
  all_chars norm_char (replace "-" ":" (upper s)) = true.
Proof.
  induction s as [|c s IH]; simpl; [reflexivity|].
  rewrite IH, andb_true_r. unfold norm_char.
  by rewrite replace_upper_not_lower, replace_not_dash.
Qed.

Lemma split_parts_chars (P : ascii -> bool) (sep : ascii) (s p : string) :
  all_chars P s = true -> In p (split sep s) ->
  all_chars (fun c => P c && negb (Ascii.eqb c sep)) p = true.
Proof.
  revert p. induction s as [|c s IH]; simpl; intros p Hs Hin.
  - destruct Hin as [<-|[]]. reflexivity.
  - apply andb_true_iff in Hs as [Hc Hs].
    destruct (Ascii.eqb c sep) eqn:Hsep.
    + destruct Hin as [<-|Hin]; [reflexivity | by apply IH].
    + destruct (split sep s) as [|q qs] eqn:Hq.
      * destruct Hin as [<-|[]]. simpl. by rewrite Hc, Hsep.
      * destruct Hin as [<-|Hin].
        -- simpl. rewrite Hc, Hsep. simpl. apply IH; [exact Hs | by left].
        -- apply IH; [exact Hs | by right].
Qed.

Lemma group_of_part (p : string) :
  String.length p = 2 ->
  all_chars (fun c => norm_char c && negb (Ascii.eqb c ":")) p = true ->
  exists a b, p = String a (String b "")
              /\ group_char a = true /\ group_char b = true.
Proof.
  destruct p as [|a [|b [|c p]]]; simpl; try discriminate.
  intros _. rewrite andb_true_r.
  intros [Ha Hb]%andb_true_iff. exists a, b. split; [reflexivity|].
  unfold group_char, norm_char in *.
  apply andb_true_iff in Ha as [[Ha1 Ha2]%andb_true_iff Ha3].
  apply andb_true_iff in Hb as [[Hb1 Hb2]%andb_true_iff Hb3].
  by rewrite Ha1, Ha2, Ha3, Hb1, Hb2, Hb3.
Qed.

Lemma add_oui_row_shape (known : gset string) (row : dict_row) :
  (forall x, x ∈ known -> oui_shape x = true) ->
  forall x, x ∈ add_oui_row known row -> oui_shape x = true.
Proof.
  intros Hknown x. unfold add_oui_row.
  set (oui := replace "-" ":" (upper (strip (or_empty (row_get row "oui"))))).
  pose proof (split_parts_chars norm_char ":" oui) as Hparts.
  specialize (fun p => Hparts p (norm_chars _)).
  destruct (split ":" oui) as [|g1 [|g2 [|g3 [|g4 gs]]]]; simpl;
    try (apply Hknown).
  destruct (Nat.eqb_spec (String.length g1) 2) as [H1|]; [|apply Hknown].
  destruct (Nat.eqb_spec (String.length g2) 2) as [H2|]; [|apply Hknown].
  destruct (Nat.eqb_spec (String.length g3) 2) as [H3|]; [|apply Hknown].
  simpl. intros [->%elem_of_singleton|Hx]%elem_of_union; [|by apply Hknown].
  destruct (group_of_part g1 H1) as (a1 & a2 & -> & Ha1 & Ha2);
    [apply Hparts; simpl; auto|].
  destruct (group_of_part g2 H2) as (b1 & b2 & -> & Hb1 & Hb2);
    [apply Hparts; simpl; auto|].
  destruct (group_of_part g3 H3) as (d1 & d2 & -> & Hd1 & Hd2);
    [apply Hparts; simpl; auto|].
  cbv [String.append oui_shape].
  by rewrite Ha1, Ha2, Hb1, Hb2, Hd1, Hd2.
Qed.

Lemma add_oui_rows_shape (rows : list dict_row) (known : gset string) :
  (forall x, x ∈ known -> oui_shape x = true) ->
  forall x, x ∈ fold_left add_oui_row rows known -> oui_shape x = true.
Proof.
  revert known. induction rows as [|row rows IH]; simpl; intros known Hk.
  - exact Hk.
  - apply IH, add_oui_row_shape, Hk.
Qed.

Lemma add_oui_sources_shape (data : data_dir) (names : list string)
    (known : gset string) :
  (forall x, x ∈ known -> oui_shape x = true) ->
  forall x, x ∈ fold_left (add_oui_source data) names known ->
            oui_shape x = true.
Proof.
  revert known. induction names as [|name names IH]; simpl; intros known Hk.
  - exact Hk.
  - apply IH. unfold add_oui_source.
    destruct (data name); [by apply add_oui_rows_shape | exact Hk].
Qed.

(** C3, as the code has it.  Every member of the set returned by
    [load_ouis] is three colon-separated groups of exactly two characters,
    none of which is a lowercase letter, a colon or a dash.  The
    characters are not required to be hexadecimal digits. *)
Theorem load_ouis_shape (data : data_dir) (include_modules : bool)
    (x : string) :
  x ∈ load_ouis data include_modules -> oui_shape x = true.
Proof.
  unfold load_ouis. apply add_oui_sources_shape.
  intros y Hy. by apply not_elem_of_empty in Hy.
Qed.

Lemma load_ouis_one_row (cell : string) (b : bool) :
  load_ouis (one_row_data cell) b = add_oui_row ∅ {[ "oui" := Some cell ]}.
Proof. by destruct b. Qed.

Lemma load_ouis_shape_witness : oui_shape "ZZ:ZZ:ZZ" = true.
Proof.
  apply (load_ouis_shape (one_row_data "zz-zz-zz") false).
  rewrite load_ouis_one_row. unfold add_oui_row, row_get.
  rewrite lookup_singleton_eq. simpl. set_solver.
Defined.

(** C3, as stated, fails: a row whose [oui] cell is [zz:zz:zz] puts
    [ZZ:ZZ:ZZ] into the set although its groups are not hexadecimal. *)
Lemma load_ouis_not_hex :
  ~ (forall x, x ∈ load_ouis (one_row_data "zz:zz:zz") false ->
               canonical_oui x = true).
Proof.
  intros H. specialize (H "ZZ:ZZ:ZZ").
  assert (Hin : "ZZ:ZZ:ZZ" ∈ load_ouis (one_row_data "zz:zz:zz") false).
  { rewrite load_ouis_one_row. unfold add_oui_row, row_get.
    rewrite lookup_singleton_eq. simpl. set_solver. }
  specialize (H Hin). discriminate H.
Qed.

(** ** Snapshot parsing *)

Lemma is_header_row_blank : is_header_row [] = false.
Proof. reflexivity. Qed.

Lemma parse_rows_skip (rows : list csv_row) :
  Forall (fun r => is_header_row r = false) rows ->
  forall tail, parse_rows false (rows ++ tail) = parse_rows false tail.
Proof.
  induction 1 as [|row rows Hrow _ IH]; intros tail; simpl; [reflexivity|].
  destruct row as [|f fs]; [apply IH|]. rewrite Hrow. simpl. apply IH.
Qed.

Lemma parse_rows_header (hdr : csv_row) (rows : list csv_row) (seen : bool) :
  is_header_row hdr = true ->
  parse_rows seen (hdr :: rows) = parse_rows true rows.
Proof.
  intros Hh. destruct hdr as [|f fs]; [discriminate|].
  simpl. by rewrite Hh.
Qed.

Lemma parse_rows_seen_step (row : csv_row) (rows : list csv_row) :
  row ≠ [] ->
  parse_rows true (row :: rows)
  = if is_data_row row then ap_of_row row :: parse_rows true rows
    else parse_rows true rows.
Proof.
  intros Hrow. destruct row as [|f fs]; [by destruct Hrow|].
  unfold is_data_row. cbn [parse_rows negb].
  rewrite Nat.ltb_antisym.
  by destruct (is_header_row (f :: fs)), (14 <=? length (f :: fs))%nat.
Qed.

Lemma parse_rows_body (body : list csv_row) (tail : list csv_row) :
  Forall (fun r => r ≠ []) body ->
  (tail = [] \/ exists rest, tail = [] :: rest) ->
  parse_rows true (body ++ tail) = records_of body.
Proof.
  intros Hbody Htail.
  induction Hbody as [|row body Hrow _ IH].
  - destruct Htail as [->|[rest ->]]; reflexivity.
  - rewrite <- app_comm_cons, (parse_rows_seen_step _ _ Hrow), IH.
    unfold records_of. cbn [List.filter].
    by destruct (is_data_row row).
Qed.

(** C4, as the code has it.  Rows are skipped until a header row, one
    whose first field, trimmed and uppercased, starts with [BSSID]; without
    such a row the result is empty.  After the header a blank row ends the
    table, whatever follows it, and so does the end of the file.  Of the
    rows in between, header rows and rows with fewer than 14 columns are
    skipped and every other row yields one record, in order, whose
    address, first-seen, last-seen, channel, power and name come from
    positions 1, 2, 3, 4, 9 and 14 of the row. *)
Theorem parse_rows_table (pre : list csv_row) (hdr : csv_row)
    (body rest : list csv_row) :
  Forall (fun r => is_header_row r = false) pre ->
  is_header_row hdr = true ->
  Forall (fun r => r ≠ []) body ->
  parse_rows false pre = []
  /\ parse_rows false (pre ++ hdr :: body ++ [] :: rest) = records_of body
  /\ parse_rows false (pre ++ hdr :: body) = records_of body
  /\ (forall r, is_header_row r
                = startswith "BSSID" (upper (strip (nth 0 r ""))))
  /\ (forall r, In (ap_of_row r) (records_of body) <->
                exists r', In r' body /\ ap_of_row r' = ap_of_row r
                           /\ is_header_row r' = false
                           /\ 14 <= length r')
  /\ (forall r, ap_of_row r
                = mk_ap_row (upper (strip (nth 0 r ""))) (strip (nth 13 r ""))
                            (strip (nth 3 r "")) (strip (nth 8 r ""))
                            (strip (nth 1 r "")) (strip (nth 2 r ""))).
Proof.
  intros Hpre Hhdr Hbody.
  split; [|split; [|split; [|split; [|split]]]].
  - rewrite <- (app_nil_r pre). by rewrite parse_rows_skip.
  - rewrite (parse_rows_skip _ Hpre), (parse_rows_header _ _ _ Hhdr).
    apply parse_rows_body; eauto.
  - rewrite (parse_rows_skip _ Hpre), (parse_rows_header _ _ _ Hhdr).
    rewrite <- (app_nil_r body) at 1. apply parse_rows_body; auto.
  - reflexivity.
  - intros r. unfold records_of. rewrite in_map_iff. split.
    + intros (r' & Heq & [Hin Hd]%List.filter_In).
      unfold is_data_row in Hd.
      apply andb_true_iff in Hd as [Hh%negb_true_iff Hl%Nat.leb_le].
      exists r'. auto.
    + intros (r' & Hin & Heq & Hh & Hl). exists r'. split; [exact Heq|].
      apply List.filter_In. split; [exact Hin|].
      unfold is_data_row. rewrite Hh.
      apply andb_true_iff. split; [reflexivity | by apply Nat.leb_le].
  - reflexivity.
Qed.

Lemma parse_rows_table_witness :
  parse_rows false
    ([ [] ] ++ ["bssid"; " First time seen"]
       :: [ demo_data_row; ["AA:BB"; " truncated"] ]
       ++ [] :: [ ["Station MAC"; " First time seen"] ])
  = [ ap_of_row demo_data_row ].
Proof.
  destruct (parse_rows_table [ [] ] ["bssid"; " First time seen"]
              [ demo_data_row; ["AA:BB"; " truncated"] ]
              [ ["Station MAC"; " First time seen"] ]) as (_ & H & _).
  - repeat constructor.
  - reflexivity.
  - repeat constructor; discriminate.
  - exact H.
Defined.

(** C4, as stated, fails: no row of [plural_header_rows] has a first
    field equal to the marker, yet the row after [BSSIDs] is parsed. *)
Lemma parse_rows_marker_prefix :
  Forall (fun r => first_field_is_marker r = false) plural_header_rows
  /\ parse_rows false plural_header_rows = [ ap_of_row demo_data_row ].
Proof. split; [repeat constructor | reflexivity]. Qed.



(** ** Capture process *)

Import Runner.

Lemma start_cmd_flags (r : Runner.t) :
  flags_of (start_cmd r)
  = (["--output-format"; "--write"; "--write-interval"]
       ++ (if opt_truthy (channels r) then ["--channel"]
           else if opt_truthy (band r) then ["--band"] else []))%list.
Proof.
  unfold start_cmd.
  by destruct (opt_truthy (channels r)), (opt_truthy (band r)).
Qed.

(** C8. The argument list built by [start] is the eight fixed arguments
    followed by the channel plan: with a channel list configured, the
    [--channel] flag with that list and no [--band] flag; with only a band
    configured, the [--band] flag with that band and no [--channel] flag;
    with neither, nothing.  No configuration passes both flags. *)
Theorem start_cmd_channel_plan (r : Runner.t) :
  let base :=
    [airodump_bin r; iface r; "--output-format"; "csv";
     "--write"; prefix r; "--write-interval"; pretty (write_interval r)] in
  (opt_truthy (channels r) = true ->
     start_cmd r = (base ++ ["--channel"; or_empty (channels r)])%list
     /\ passes_flag "--channel" (start_cmd r) = true
     /\ passes_flag "--band" (start_cmd r) = false)
  /\ (opt_truthy (channels r) = false -> opt_truthy (band r) = true ->
        start_cmd r = (base ++ ["--band"; or_empty (band r)])%list
        /\ passes_flag "--band" (start_cmd r) = true
        /\ passes_flag "--channel" (start_cmd r) = false)
  /\ (opt_truthy (channels r) = false -> opt_truthy (band r) = false ->
        start_cmd r = base
        /\ passes_flag "--band" (start_cmd r) = false
        /\ passes_flag "--channel" (start_cmd r) = false)
  /\ passes_flag "--channel" (start_cmd r)
     && passes_flag "--band" (start_cmd r) = false
  /\ (forall cmd r', start true r = Some (cmd, r') -> cmd = start_cmd r).
Proof.
  intros base. subst base. unfold passes_flag. rewrite start_cmd_flags.
  unfold start_cmd.
  split; [|split; [|split; [|split]]].
  - intros ->. repeat split.
  - intros -> ->. repeat split.
  - intros -> ->. repeat split.
  - by destruct (opt_truthy (channels r)), (opt_truthy (band r)).
  - intros cmd r' [= <- _]. reflexivity.
Qed.

Example start_cmd_channels_override :
  start_cmd (Runner.mk "wlan0mon" "/tmp/dronescan_x/scan" (Some "bg")
                       (Some "1,6,11") 2 "airodump-ng" None)
  = ["airodump-ng"; "wlan0mon"; "--output-format"; "csv"; "--write";
     "/tmp/dronescan_x/scan"; "--write-interval"; "2";
     "--channel"; "1,6,11"].
Proof. vm_compute. reflexivity. Qed.

Lemma stop_returns (os : os_behaviour) (r : Runner.t) :
  (stop os r).1.1 = inl tt.
Proof.
  unfold stop. destruct (proc r) as [[]|]; [|reflexivity..].
  unfold stop_body, try_except, bind, terminate, wait, kill,
    raise_or_return, ret.
  destruct os as [[[]|] [[]|] [[]|] left]; reflexivity.
Qed.

Lemma stop_idle (os : os_behaviour) (r : Runner.t) :
  proc r = None \/ proc r = Some Exited ->
  stop os r = (inl tt, [], r).
Proof. unfold stop. by intros [->| ->]. Qed.

(** C9. However often [stop] is called and however the operating system
    answers, every call returns normally.  On a runner that was never
    started or whose child has exited, a call makes no call on the child
    and leaves the runner as it was, and so does any sequence of calls. *)
Theorem stop_is_safe (oss : list os_behaviour) (r : Runner.t) :
  Forall (fun out => out.1 = inl tt) (stop_many oss r).1
  /\ (forall os, (stop os r).1.1 = inl tt)
  /\ (proc r = None \/ proc r = Some Exited ->
        (forall os, stop os r = (inl tt, [], r))
        /\ stop_many oss r = (map (fun _ => (inl tt, [])) oss, r)).
Proof.
  split; [|split].
  - revert r. induction oss as [|os oss IH]; intros r; simpl.
    + constructor.
    + pose proof (stop_returns os r) as Hret.
      destruct (stop os r) as [[res tr] r'].
      specialize (IH r'). destruct (stop_many oss r') as [out r''].
      simpl in *. constructor; assumption.
  - intros os. apply stop_returns.
  - intros Hidle. split; [intros os; by apply stop_idle|].
    induction oss as [|os oss IH]; simpl; [reflexivity|].
    rewrite (stop_idle os r Hidle), IH. reflexivity.
Qed.

Example stop_timeout_then_kill :
  stop (mk_os None (Some TimeoutExpired) (Some OtherException) Running)
       (Runner.mk "wlan0mon" "/tmp/scan" None None 2 "airodump-ng"
                  (Some Running))
  = (inl tt, [Terminate; Wait; Kill],
     Runner.mk "wlan0mon" "/tmp/scan" None None 2 "airodump-ng"
               (Some Running)).
Proof. reflexivity. Qed.

(** * Further properties of the helpers *)

(** ** More on strings *)

Lemma str_app_cons (x : ascii) (a b : string) :
  String x a +:+ b = String x (a +:+ b).
Proof. reflexivity. Qed.

Lemma count_app (c : ascii) (a b : string) :
  count c (a +:+ b) = count c a + count c b.
Proof.
  induction a as [|x a IH]; rewrite ?str_app_cons; simpl; [reflexivity|]. rewrite IH. lia.
Qed.

Lemma all_chars_app (P : ascii -> bool) (a b : string) :
  all_chars P (a +:+ b) = all_chars P a && all_chars P b.
Proof.
  induction a as [|x a IH]; rewrite ?str_app_cons; simpl; [reflexivity|].
  by rewrite IH, andb_assoc.
Qed.

Lemma split_nonempty (sep : ascii) (s : string) : split sep s ≠ [].
Proof.
  destruct s as [|c s]; [discriminate|]. cbn [split].
  destruct (Ascii.eqb c sep); [discriminate|].
  destruct (split sep s); discriminate.
Qed.

Lemma join_cons (sep p : string) (ps : list string) :
  ps ≠ [] -> join sep (p :: ps) = p +:+ sep +:+ join sep ps.
Proof. destruct ps; [congruence | reflexivity]. Qed.

Lemma join_head_char (sep : string) (c : ascii) (p : string)
    (ps : list string) :
  join sep (String c p :: ps) = String c (join sep (p :: ps)).
Proof. destruct ps; reflexivity. Qed.

(** [split] then [join] gives the text back. *)
Lemma join_split (sep : ascii) (s : string) :
  join (String sep "") (split sep s) = s.
Proof.
  induction s as [|c s IH]; [reflexivity|].
  cbn [split]. destruct (Ascii.eqb_spec c sep) as [->|Hne].
  - rewrite join_cons by apply split_nonempty. by rewrite IH.
  - pose proof (split_nonempty sep s) as Hs.
    destruct (split sep s) as [|p ps]; [congruence|].
    by rewrite join_head_char, IH.
Qed.

Lemma isspace_upper_char (c : ascii) : isspace (upper_char c) = isspace c.
Proof. all_ascii c. Qed.

Lemma isspace_replace_char (c : ascii) :
  isspace (replace_char "-" ":" c) = isspace c.
Proof. all_ascii c. Qed.

Lemma upper_char_twice (c : ascii) : upper_char (upper_char c) = upper_char c.
Proof. all_ascii c. Qed.

Lemma replace_char_twice (c : ascii) :
  replace_char "-" ":" (replace_char "-" ":" c) = replace_char "-" ":" c.
Proof. all_ascii c. Qed.

Lemma upper_replace_char (c : ascii) :
  upper_char (replace_char "-" ":" c) = replace_char "-" ":" (upper_char c).
Proof. all_ascii c. Qed.

Section CharMaps.
(** A character map that keeps blanks blank and the rest non-blank
    commutes with stripping. *)
Variable f : ascii -> ascii.
Hypothesis f_space : forall c, isspace (f c) = isspace c.

Lemma lstrip_map_chars (s : string) :
  lstrip (map_chars f s) = map_chars f (lstrip s).
Proof.
  induction s as [|c s IH]; [reflexivity|].
  simpl. rewrite f_space. by destruct (isspace c).
Qed.

Lemma rstrip_map_chars (s : string) :
  rstrip (map_chars f s) = map_chars f (rstrip s).
Proof.
  induction s as [|c s IH]; [reflexivity|].
  simpl. rewrite IH, f_space.
  destruct (rstrip s); simpl; by destruct (isspace c).
Qed.

Lemma strip_map_chars (s : string) :
  strip (map_chars f s) = map_chars f (strip s).
Proof. unfold strip. by rewrite lstrip_map_chars, rstrip_map_chars. Qed.
End CharMaps.

Lemma upper_map_chars (s : string) : upper s = map_chars upper_char s.
Proof. induction s as [|c s IH]; simpl; [reflexivity | by rewrite IH]. Qed.

Lemma replace_map_chars (old new : ascii) (s : string) :
  replace old new s = map_chars (replace_char old new) s.
Proof. induction s as [|c s IH]; simpl; [reflexivity | by rewrite IH]. Qed.

Lemma strip_upper (s : string) : strip (upper s) = upper (strip s).
Proof.
  rewrite !upper_map_chars. apply strip_map_chars, isspace_upper_char.
Qed.

Lemma strip_replace (s : string) :
  strip (replace "-" ":" s) = replace "-" ":" (strip s).
Proof.
  rewrite !replace_map_chars. apply strip_map_chars, isspace_replace_char.
Qed.

Lemma upper_twice (s : string) : upper (upper s) = upper s.
Proof.
  induction s as [|c s IH]; simpl; [reflexivity|].
  by rewrite upper_char_twice, IH.
Qed.

Lemma replace_twice (s : string) :
  replace "-" ":" (replace "-" ":" s) = replace "-" ":" s.
Proof.
  induction s as [|c s IH]; simpl; [reflexivity|].
  by rewrite replace_char_twice, IH.
Qed.

Lemma upper_replace (s : string) :
  upper (replace "-" ":" s) = replace "-" ":" (upper s).
Proof.
  induction s as [|c s IH]; simpl; [reflexivity|].
  by rewrite upper_replace_char, IH.
Qed.

Lemma lstrip_blank (l : string) : all_chars isspace l = true -> lstrip l = "".
Proof.
  induction l as [|c l IH]; simpl; [reflexivity|].
  intros [Hc Hl]%andb_true_iff. rewrite Hc. by apply IH.
Qed.

Lemma strip_app_blank (s r : string) :
  all_chars isspace r = true -> strip (s +:+ r) = strip s.
Proof.
  intros Hr. unfold strip. induction s as [|c s IH].
  - change ("" +:+ r) with r. by rewrite (lstrip_blank r Hr).
  - rewrite str_app_cons. cbn [lstrip].
    destruct (isspace c); [exact IH|].
    rewrite <- str_app_cons. by apply rstrip_app_blank.
Qed.

Lemma strip_blank_padding (l s r : string) :
  all_chars isspace l = true -> all_chars isspace r = true ->
  strip (l +:+ s +:+ r) = strip s.
Proof.
  intros Hl Hr. unfold strip at 1. rewrite (lstrip_blank_app _ _ Hl).
  by apply strip_app_blank.
Qed.

(** ** More on prefix extraction *)

(** X1. The prefix does not depend on the letter case of the address, on
    whether its separators are dashes or colons, or on blanks around
    it. *)
Theorem mac_to_oui_insensitive (mac : string) :
  mac_to_oui (upper mac) = mac_to_oui mac
  /\ mac_to_oui (replace "-" ":" mac) = mac_to_oui mac
  /\ forall l r, all_chars isspace l = true -> all_chars isspace r = true ->
                 mac_to_oui (l +:+ mac +:+ r) = mac_to_oui mac.
Proof.
  unfold mac_to_oui. split; [|split].
  - by rewrite strip_upper, upper_twice.
  - by rewrite strip_replace, upper_replace, replace_twice.
  - intros l r Hl Hr. by rewrite (strip_blank_padding _ _ _ Hl Hr).
Qed.

(** * Further properties of the vendor-prefix loader *)

Lemma add_oui_row_eq (known : gset string) (row : dict_row) :
  add_oui_row known row
  = if well_shaped (normal_cell row) then {[ normal_cell row ]} ∪ known
    else known.
Proof.
  unfold add_oui_row, well_shaped. fold (normal_cell row).
  by rewrite join_split.
Qed.

Lemma group_char_not_colon (c : ascii) :
  group_char c = true -> Ascii.eqb c ":" = false.
Proof. all_ascii c. Qed.

Lemma oui_shape_well_shaped (x : string) :
  oui_shape x = true -> well_shaped x = true.
Proof.
  destruct x as [|a1 [|a2 [|c1 [|b1 [|b2 [|c2 [|d1 [|d2 [|e x]]]]]]]]];
    try discriminate.
  unfold oui_shape, well_shaped.
  intros H. do 7 (apply andb_true_iff in H as [H ?]).
  repeat match goal with
         | H : Ascii.eqb _ ":" = true |- _ => apply Ascii.eqb_eq in H; subst
         | H : group_char _ = true |- _ => apply group_char_not_colon in H
         end.
  cbn [split].
  repeat match goal with
         | H : Ascii.eqb ?c ":" = false |- context [Ascii.eqb ?c ":"] =>
             rewrite H
         end.
  reflexivity.
Qed.

Lemma well_shaped_normal_cell (row : dict_row) :
  well_shaped (normal_cell row) = oui_shape (normal_cell row).
Proof.
  destruct (well_shaped (normal_cell row)) eqn:Hw.
  - symmetry. apply (add_oui_row_shape ∅ row).
    + intros y Hy. by apply not_elem_of_empty in Hy.
    + rewrite add_oui_row_eq, Hw. set_solver.
  - destruct (oui_shape (normal_cell row)) eqn:Hs; [|reflexivity].
    apply oui_shape_well_shaped in Hs. congruence.
Qed.

Lemma add_oui_rows_members (rows : list dict_row) (known : gset string)
    (x : string) :
  x ∈ fold_left add_oui_row rows known
  <-> x ∈ known
      \/ exists row, In row rows /\ normal_cell row = x /\ oui_shape x = true.
Proof.
  revert known. induction rows as [|row rows IH]; intros known; simpl.
  - split; [auto | intros [H|(row & [] & _)]; exact H].
  - rewrite IH, add_oui_row_eq, well_shaped_normal_cell. split.
    + intros [Hx|(row' & Hin & Hc & Hs)].
      * destruct (oui_shape (normal_cell row)) eqn:Hs; [|by left].
        apply elem_of_union in Hx as [->%elem_of_singleton|Hx];
          [right; exists row; auto | by left].
      * right. exists row'. auto.
    + intros [Hx|(row' & [<-|Hin] & Hc & Hs)].
      * left. destruct (oui_shape (normal_cell row)); [|exact Hx].
        apply elem_of_union. by right.
      * left. subst x. rewrite Hs. apply elem_of_union. left.
        by apply elem_of_singleton.
      * right. exists row'. auto.
Qed.

Lemma add_oui_sources_members (data : data_dir) (names : list string)
    (known : gset string) (x : string) :
  x ∈ fold_left (add_oui_source data) names known
  <-> x ∈ known
      \/ exists name rows row,
           In name names /\ data name = Some rows /\ In row rows
           /\ normal_cell row = x /\ oui_shape x = true.
Proof.
  revert known. induction names as [|name names IH]; intros known; simpl.
  - split; [auto | intros [H|(? & ? & ? & [] & _)]; exact H].
  - rewrite IH. unfold add_oui_source. split.
    + intros [Hx|(name' & rows & row & Hin & Hd & Hr & Hc & Hs)].
      * destruct (data name) as [rows|] eqn:Hd; [|by left].
        apply add_oui_rows_members in Hx as [Hx|(row & Hr & Hc & Hs)];
          [by left|].
        right. exists name, rows, row. auto 10.
      * right. exists name', rows, row. auto 10.
    + intros [Hx|(name' & rows & row & [<-|Hin] & Hd & Hr & Hc & Hs)].
      * left. destruct (data name); [|exact Hx].
        apply add_oui_rows_members. by left.
      * left. rewrite Hd. apply add_oui_rows_members. right.
        exists row. auto.
      * right. exists name', rows, row. auto 10.
Qed.

(** X2. A text is in the set returned by [load_ouis] exactly when some row
    of some file that was read has it as its normalised [oui] cell
    (blanks trimmed, uppercased, dashes turned into colons) and it has the
    shape of three colon-separated groups of two characters. *)
Theorem load_ouis_members (data : data_dir) (include_modules : bool)
    (x : string) :
  x ∈ load_ouis data include_modules
  <-> exists name rows row,
        In name (oui_sources include_modules)
        /\ data name = Some rows /\ In row rows
        /\ normal_cell row = x /\ oui_shape x = true.
Proof.
  unfold load_ouis. fold (oui_sources include_modules).
  rewrite add_oui_sources_members. split; [|auto].
  intros [Hx|H]; [by apply not_elem_of_empty in Hx | exact H].
Qed.

(** * Further properties of the snapshot parser *)

Lemma parse_rows_origin (seen : bool) (rows : list csv_row) (ap : ap_row) :
  In ap (parse_rows seen rows) ->
  exists row, In row rows /\ ap = ap_of_row row
              /\ 14 <= length row /\ is_header_row row = false.
Proof.
  revert seen. induction rows as [|row rows IH]; intros seen; [intros []|].
  assert (Hmono : forall s, In ap (parse_rows s rows) ->
            exists row0, In row0 (row :: rows) /\ ap = ap_of_row row0
                         /\ 14 <= length row0 /\ is_header_row row0 = false).
  { intros s Hap. destruct (IH s Hap) as (row0 & Hin & H).
    exists row0. split; [by right | exact H]. }
  destruct row as [|f fs]; cbn [parse_rows].
  - destruct seen; [intros [] | apply Hmono].
  - destruct (is_header_row (f :: fs)) eqn:Hh; [apply Hmono|].
    destruct seen; cbn [negb]; [|apply Hmono].
    destruct (Nat.ltb_spec (length (f :: fs)) 14) as [Hlt|Hge];
      [apply Hmono|].
    intros [<-|Hap]; [|by apply (Hmono true)].
    exists (f :: fs). split; [by left|]. auto.
Qed.

(** X3. Whatever the rows and whether or not the header was already
    seen, every record comes from a row of the input that has at least 14
    columns and is not a header row, and there are no more records than
    such rows. *)
Theorem parse_rows_sound (seen : bool) (rows : list csv_row) :
  (forall ap, In ap (parse_rows seen rows) ->
     exists row, In row rows /\ ap = ap_of_row row
                 /\ 14 <= length row /\ is_header_row row = false)
  /\ length (parse_rows seen rows) <= length (List.filter is_data_row rows).
Proof.
  split; [intros ap; apply parse_rows_origin|].
  revert seen. induction rows as [|row rows IH]; intros seen; [reflexivity|].
  assert (Hmono : forall s, length (parse_rows s rows)
                   <= length (List.filter is_data_row (row :: rows))).
  { intros s. specialize (IH s). cbn [List.filter].
    destruct (is_data_row row); simpl; lia. }
  destruct row as [|f fs]; cbn [parse_rows].
  - destruct seen; [simpl; lia | apply Hmono].
  - destruct (is_header_row (f :: fs)) eqn:Hh; [apply Hmono|].
    destruct seen; cbn [negb]; [|apply Hmono].
    destruct (Nat.ltb_spec (length (f :: fs)) 14) as [Hlt|Hge];
      [apply Hmono|].
    specialize (IH true). cbn [List.filter]. unfold is_data_row at 1.
    rewrite Hh. cbn [negb andb].
    destruct (Nat.leb_spec 14 (length (f :: fs))); [|lia].
    simpl. lia.
Qed.

(** * Further properties of the capture-process supervisor *)

Lemma stop_running (os : os_behaviour) (r : Runner.t) :
  proc r = Some Running ->
  (stop os r).1.2 = expected_calls os
  /\ (terminate_raises os = None -> wait_raises os = None ->
      proc (stop os r).2 = Some Exited).
Proof.
  intros Hrun. unfold stop, expected_calls. rewrite Hrun.
  unfold stop_body, try_except, bind, terminate, wait, kill,
    raise_or_return, ret, log_call.
  destruct os as [[[]|] [[]|] [[]|] left]; cbn;
    (split; [reflexivity | intros; congruence]).
Qed.

(** X4. On a running child [stop] always sends the termination request
    first.  It waits only when that request did not raise, and it kills
    only when the wait timed out; when the wait returns normally the child
    is recorded as exited. *)
Theorem stop_calls (os : os_behaviour) (r : Runner.t) :
  proc r = Some Running ->
  (stop os r).1.2 = expected_calls os
  /\ (In Kill (stop os r).1.2
      <-> terminate_raises os = None
          /\ wait_raises os = Some TimeoutExpired)
  /\ (terminate_raises os = None -> wait_raises os = None ->
      proc (stop os r).2 = Some Exited).
Proof.
  intros Hrun. destruct (stop_running os r Hrun) as [Hcalls Hexit].
  split; [exact Hcalls|]. split; [|exact Hexit].
  rewrite Hcalls. unfold expected_calls.
  destruct (terminate_raises os) as [e|].
  - split; [intros [H|[]]; discriminate H | intros [H _]; discriminate H].
  - destruct (wait_raises os) as [[]|]; simpl; split;
      try (intros [? H]; discriminate H); auto;
      intros H; repeat destruct H as [H|H]; try discriminate H;
      by destruct H.
Qed.

Lemma stop_calls_witness :
  (stop (mk_os None (Some TimeoutExpired) None Exited)
        (Runner.mk "wlan0mon" "/tmp/scan" None None 2 "airodump-ng"
                   (Some Running))).1.2
  = [Terminate; Wait; Kill].
Proof.
  destruct (stop_calls (mk_os None (Some TimeoutExpired) None Exited)
              (Runner.mk "wlan0mon" "/tmp/scan" None None 2 "airodump-ng"
                         (Some Running)) eq_refl) as [H _].
  exact H.
Defined.

(** * Further properties of the detection loop *)

Lemma key_of_payload (sev : severity) (hit : bool) (oui name : string) :
  (sev, default "" (if hit then Some oui else None),
   default "" (none_if_empty name))
  = (sev, (if hit then oui else ""), name).
Proof. by destruct hit, name. Qed.

Lemma scan_row_cases (e : engine) (now_iso : string) (now : Z)
    (csv_path : string) (st : dedup_state) (ap : ap_row) :
  (exists a,
     scan_row e now_iso now csv_path st ap
     = (Emitted a, <[alert_key a := now]> st)
     /\ (dedup_secs e <= now - default 0 (st !! alert_key a))%Z)
  \/ ((scan_row e now_iso now csv_path st ap).2 = st
      /\ emission now (scan_row e now_iso now csv_path st ap).1 = None).
Proof.
  unfold scan_row.
  destruct (truthy (bssid ap)); cbn [negb]; [|by right].
  destruct (classify _ _) as [sev|]; [|by right].
  set (hit := oui_hit_of (ouis e) (mac_to_oui (bssid ap))).
  set (key := (sev, (if hit then mac_to_oui (bssid ap) else ""), essid ap)).
  destruct (Z.leb_spec (dedup_secs e) (now - default 0%Z (st !! key)))
    as [Hle|Hlt].
  - rewrite (should_emit_true _ _ _ _ Hle). left.
    match goal with |- context [Emitted ?p] => exists p end.
    unfold alert_key. cbn [a_severity a_oui a_ssid].
    rewrite key_of_payload. fold key. split; [reflexivity | exact Hle].
  - rewrite (should_emit_false _ _ _ _ Hlt). by right.
Qed.

Lemma replay_app (st : dedup_state) (l1 l2 : list (Z * dedup_key)) :
  replay st (l1 ++ l2) = replay (replay st l1) l2.
Proof. unfold replay. by rewrite fold_left_app. Qed.

Lemma spaced_app (w : Z) (st : dedup_state) (l1 l2 : list (Z * dedup_key)) :
  spaced w st (l1 ++ l2) <-> spaced w st l1 /\ spaced w (replay st l1) l2.
Proof.
  revert st. induction l1 as [|[t k] l1 IH]; intros st; simpl.
  - tauto.
  - rewrite IH. unfold replay. simpl. tauto.
Qed.

Lemma scan_rows_log (e : engine) (now_iso : string) (now : Z)
    (csv_path : string) (st : dedup_state) (aps : list ap_row) :
  spaced (dedup_secs e) st
         (emissions now (scan_rows e now_iso now csv_path st aps).1)
  /\ (scan_rows e now_iso now csv_path st aps).2
     = replay st (emissions now (scan_rows e now_iso now csv_path st aps).1)
  /\ length (scan_rows e now_iso now csv_path st aps).1 = length aps.
Proof.
  revert st. induction aps as [|ap aps IH]; intros st; [by cbn|].
  cbn [scan_rows].
  destruct (scan_row_cases e now_iso now csv_path st ap)
    as [(a & Hrow & Hle)|[Hst Hnone]].
  - rewrite Hrow. specialize (IH (<[alert_key a := now]> st)).
    destruct (scan_rows e now_iso now csv_path _ aps) as [ds st'].
    cbn in *. destruct IH as (Hsp & Hre & Hlen).
    split; [by split|]. split; [exact Hre | by rewrite Hlen].
  - destruct (scan_row e now_iso now csv_path st ap) as [d st0].
    cbn in Hst, Hnone. subst st0. specialize (IH st).
    destruct (scan_rows e now_iso now csv_path st aps) as [ds st'].
    unfold emissions in *. cbn in *. rewrite Hnone.
    destruct IH as (Hsp & Hre & Hlen). by rewrite Hlen.
Qed.

Lemma poll_once_log (e : engine) (parent stem : string) (env : poll_env)
    (st : dedup_state) (ds : list decision) (st' : dedup_state) :
  poll_once e parent stem env st = inl (ds, st') ->
  spaced (dedup_secs e) st (emissions (env_now env) ds)
  /\ st' = replay st (emissions (env_now env) ds).
Proof.
  unfold poll_once.
  destruct (latest_csv _ _ _) as [p|]; [|by intros [= <- <-]].
  destruct (env_exists env p); [|by intros [= <- <-]].
  destruct (parse_airodump_csv _ _) as [aps|err]; [|discriminate].
  intros [= Hscan].
  destruct (scan_rows_log e (env_now_iso env) (env_now env) p st aps)
    as (Hsp & Hre & _).
  rewrite Hscan in Hsp, Hre. by cbn in *.
Qed.

Lemma log_emissions_cons (t : Z) (ds : list decision)
    (log : list (Z * list decision)) :
  log_emissions ((t, ds) :: log) = (emissions t ds ++ log_emissions log)%list.
Proof. reflexivity. Qed.

(** X5. Over a whole run of the polling loop, every emitted alert comes
    at least the suppression window after the previous emitted alert with
    the same key, or after the time the dictionary held for that key at
    the start, and the dictionary at the end is the starting one with the
    emissions recorded in order. *)
Theorem run_polls_log (e : engine) (parent stem : string)
    (st : dedup_state) (envs : list poll_env) :
  spaced (dedup_secs e) st
         (log_emissions (run_polls e parent stem st envs).1.1)
  /\ (run_polls e parent stem st envs).1.2
     = replay st (log_emissions (run_polls e parent stem st envs).1.1).
Proof.
  revert st. induction envs as [|env envs IH]; intros st; [by cbn|].
  cbn [run_polls].
  destruct (poll_once e parent stem env st) as [[ds st1]|err] eqn:Hp;
    [|by cbn].
  destruct (poll_once_log _ _ _ _ _ _ _ Hp) as [Hsp Hre].
  specialize (IH st1).
  destruct (run_polls e parent stem st1 envs) as [[log st2] err].
  cbn [fst snd] in *. rewrite log_emissions_cons.
  destruct IH as [Hsp' Hre']. subst st1.
  split; [apply spaced_app; by split|].
  by rewrite replay_app.
Qed.

Lemma spaced_same_time (w now : Z) (log : list (Z * dedup_key))
    (st : dedup_state) :
  (0 < w)%Z -> Forall (fun tk => tk.1 = now) log -> spaced w st log ->
  NoDup (map snd log)
  /\ forall k, In k (map snd log) -> st !! k ≠ Some now.
Proof.
  intros Hw Hall. revert st.
  induction Hall as [|[t k] log Ht _ IH]; intros st Hsp.
  - split; [constructor | intros k []].
  - cbn in Ht. subst t. destruct Hsp as [Hle Hsp].
    destruct (IH _ Hsp) as [Hnd Hfresh]. split.
    + cbn. constructor; [|exact Hnd].
      intros Hin%list_elem_of_In. apply (Hfresh k Hin).
      apply lookup_insert_eq.
    + intros k' Hin'. cbn in Hin'. destruct Hin' as [<-|Hin].
      * intros Hk. rewrite Hk in Hle. cbn in Hle. lia.
      * intros Hk. apply (Hfresh k' Hin).
        destruct (decide (k = k')) as [->|Hne];
          [apply lookup_insert_eq | by rewrite lookup_insert_ne].
Qed.

Lemma emissions_time (now : Z) (ds : list decision) :
  Forall (fun tk => tk.1 = now) (emissions now ds).
Proof.
  unfold emissions. induction ds as [|d ds IH]; cbn; [constructor|].
  destruct d; cbn; auto.
Qed.

(** X6. With a positive suppression window, one pass over a snapshot
    emits at most one alert per key, however many records of the snapshot
    share that key. *)
Theorem scan_rows_one_per_key (e : engine) (now_iso : string) (now : Z)
    (csv_path : string) (st : dedup_state) (aps : list ap_row) :
  (0 < dedup_secs e)%Z ->
  NoDup (map snd
           (emissions now (scan_rows e now_iso now csv_path st aps).1)).
Proof.
  intros Hw.
  destruct (scan_rows_log e now_iso now csv_path st aps) as (Hsp & _ & _).
  apply (spaced_same_time _ now _ st Hw); [apply emissions_time | exact Hsp].
Qed.

Lemma scan_rows_one_per_key_witness :
  NoDup (map snd
    (emissions 1000
       (scan_rows demo_engine "2024-01-01T00:00:05Z" 1000 "scan-01.csv" ∅
          [demo_ap "AA:BB:CC:11:22:33" "Generic" "1" "-40";
           demo_ap "AA:BB:CC:44:55:66" "Generic" "6" "-60"]).1)).
Proof. apply scan_rows_one_per_key. reflexivity. Defined.

(** * Further properties of the snapshot locator and the loop *)

Lemma sorted_desc_head (listing : list dir_entry) :
  match sorted_desc listing with
  | [] => listing = []
  | c :: _ =>
      exists l1 l2,
        listing = (l1 ++ c :: l2)%list
        /\ Forall (fun c' => entry_mtime c' < entry_mtime c)%Z l1
        /\ Forall (fun c' => entry_mtime c' <= entry_mtime c)%Z l2
  end.
Proof.
  induction listing as [|x xs IH]; [reflexivity|].
  cbn [sorted_desc foldr]. fold (sorted_desc xs).
  destruct (sorted_desc xs) as [|y ys].
  - subst xs. exists [], []. by repeat split.
  - destruct IH as (l1 & l2 & -> & Hl1 & Hl2). cbn [insert_desc].
    destruct (Z.ltb_spec (entry_mtime x) (entry_mtime y)) as [Hlt|Hge].
    + exists (x :: l1), l2. split; [reflexivity|]. split; [|exact Hl2].
      by constructor.
    + exists [], (l1 ++ y :: l2)%list. split; [reflexivity|].
      split; [constructor|].
      apply Forall_app. split.
      * eapply Forall_impl; [exact Hl1|]. intros c' Hc'. cbn in *. lia.
      * constructor; [exact Hge|].
        eapply Forall_impl; [exact Hl2|]. intros c' Hc'. cbn in *. lia.
Qed.

Lemma insert_desc_perm (x : dir_entry) (l : list dir_entry) :
  insert_desc x l ≡ₚ x :: l.
Proof.
  induction l as [|y l IH]; [reflexivity|]. cbn [insert_desc].
  destruct (entry_mtime x <? entry_mtime y)%Z; [|reflexivity].
  rewrite IH. apply Permutation_swap.
Qed.

Lemma insert_desc_sorted (x : dir_entry) (l : list dir_entry) :
  StronglySorted (fun a b => entry_mtime b <= entry_mtime a)%Z l ->
  StronglySorted (fun a b => entry_mtime b <= entry_mtime a)%Z
                 (insert_desc x l).
Proof.
  induction 1 as [|y l Hs IH Hy]; cbn [insert_desc].
  - repeat constructor.
  - destruct (Z.ltb_spec (entry_mtime x) (entry_mtime y)) as [Hlt|Hge].
    + constructor; [exact IH|].
      rewrite insert_desc_perm. constructor; [cbn; lia | exact Hy].
    + constructor; [by constructor|]. constructor; [exact Hge|].
      eapply Forall_impl; [exact Hy|]. intros c' Hc'. cbn in *. lia.
Qed.

Lemma sorted_desc_perm (l : list dir_entry) : sorted_desc l ≡ₚ l.
Proof.
  induction l as [|x xs IH]; [reflexivity|].
  change (sorted_desc (x :: xs)) with (insert_desc x (sorted_desc xs)).
  rewrite insert_desc_perm. by constructor.
Qed.

Lemma sorted_desc_sorted (l : list dir_entry) :
  StronglySorted (fun a b => entry_mtime b <= entry_mtime a)%Z
                 (sorted_desc l).
Proof.
  induction l as [|x xs IH]; [constructor|].
  change (sorted_desc (x :: xs)) with (insert_desc x (sorted_desc xs)).
  by apply insert_desc_sorted.
Qed.

(** X7. [latest_csv] returns nothing exactly when the listing is empty.
    Otherwise it returns the path of an entry of the listing whose
    modification time no other entry exceeds, the first such entry in
    listing order.  The sort it relies on rearranges the listing into
    non-increasing modification times. *)
Theorem latest_csv_newest (glob : string -> string -> list dir_entry)
    (parent stem : string) :
  (latest_csv glob parent stem = None
   <-> glob parent (stem +:+ "-*.csv") = [])
  /\ (forall p, latest_csv glob parent stem = Some p ->
        exists l1 c l2,
          glob parent (stem +:+ "-*.csv") = (l1 ++ c :: l2)%list
          /\ entry_path c = p
          /\ Forall (fun c' => entry_mtime c' < entry_mtime c)%Z l1
          /\ Forall (fun c' => entry_mtime c' <= entry_mtime c)%Z l2)
  /\ sorted_desc (glob parent (stem +:+ "-*.csv"))
     ≡ₚ glob parent (stem +:+ "-*.csv")
  /\ StronglySorted (fun a b => entry_mtime b <= entry_mtime a)%Z
       (sorted_desc (glob parent (stem +:+ "-*.csv"))).
Proof.
  unfold latest_csv.
  pose proof (sorted_desc_head (glob parent (stem +:+ "-*.csv"))) as Hh.
  split; [|split; [|split]].
  - destruct (sorted_desc _) as [|c cs].
    + by rewrite Hh.
    + destruct Hh as (l1 & l2 & -> & _). split; [discriminate|].
      by destruct l1.
  - intros p Hp. destruct (sorted_desc _) as [|c cs]; [discriminate|].
    injection Hp as <-. destruct Hh as (l1 & l2 & H1 & H2 & H3).
    exists l1, c, l2. auto.
  - apply sorted_desc_perm.
  - apply sorted_desc_sorted.
Qed.

(** * Properties of the name-pattern loader *)

(** ** The ordered dictionary *)

Lemma dict_set_fresh {V} (d : list (string * V)) (k : string) (v : V) :
  ~ In k (map fst d) -> PyDict.set d k v = (d ++ [(k, v)])%list.
Proof.
  induction d as [|[k' v'] d IH]; intros Hk; [reflexivity|].
  cbn [PyDict.set]. cbn in Hk.
  destruct (String.eqb_spec k' k) as [->|Hne]; [tauto|].
  rewrite IH by tauto. reflexivity.
Qed.

Lemma dict_append_last {V} (d : list (string * list V)) (k : string)
    (l : list V) (x : V) :
  ~ In k (map fst d) ->
  PyDict.append (d ++ [(k, l)]) k x = Some (d ++ [(k, l ++ [x])])%list.
Proof.
  induction d as [|[k' l'] d IH]; intros Hk; cbn [PyDict.append app].
  - by rewrite String.eqb_refl.
  - cbn in Hk. destruct (String.eqb_spec k' k) as [->|Hne]; [tauto|].
    rewrite IH by tauto. reflexivity.
Qed.

Lemma dict_touch_fresh {V} (d : list (string * list V)) (k : string) :
  ~ In k (map fst d) -> PyDict.touch d k = (d ++ [(k, [])])%list.
Proof.
  induction d as [|[k' l'] d IH]; intros Hk; [reflexivity|].
  cbn [PyDict.touch]. cbn in Hk.
  destruct (String.eqb_spec k' k) as [->|Hne]; [tauto|].
  rewrite IH by tauto. reflexivity.
Qed.

Lemma dict_touch_last {V} (d : list (string * list V)) (k : string)
    (l : list V) :
  ~ In k (map fst d) ->
  PyDict.touch (d ++ [(k, l)]) k = (d ++ [(k, l)])%list.
Proof.
  induction d as [|[k' l'] d IH]; intros Hk; cbn [PyDict.touch app].
  - by rewrite String.eqb_refl.
  - cbn in Hk. destruct (String.eqb_spec k' k) as [->|Hne]; [tauto|].
    rewrite IH by tauto. reflexivity.
Qed.

Lemma dict_push_last {V} (d : list (string * list V)) (k : string)
    (l : list V) (x : V) :
  ~ In k (map fst d) ->
  PyDict.push (d ++ [(k, l)]) k x = (d ++ [(k, l ++ [x])])%list.
Proof.
  induction d as [|[k' l'] d IH]; intros Hk; cbn [PyDict.push app].
  - by rewrite String.eqb_refl.
  - cbn in Hk. destruct (String.eqb_spec k' k) as [->|Hne]; [tauto|].
    rewrite IH by tauto. reflexivity.
Qed.

(** ** The fallback parser *)

Lemma yaml_lines_app (st : yaml_state) (l1 l2 : list string) :
  yaml_lines st (l1 ++ l2)
  = match yaml_lines st l1 with
    | Some st' => yaml_lines st' l2
    | None => None
    end.
Proof.
  revert st. induction l1 as [|raw l1 IH]; intros st; [reflexivity|].
  cbn [yaml_lines app]. destruct (yaml_step st raw); [apply IH|reflexivity].
Qed.

Lemma lstrip_length (s : string) :
  String.length (lstrip s) <= String.length s.
Proof.
  induction s as [|c s IH]; cbn [lstrip String.length]; [lia|].
  destruct (isspace c); cbn [String.length]; lia.
Qed.

Lemma rstrip_length (s : string) :
  String.length (rstrip s) <= String.length s.
Proof.
  induction s as [|c s IH]; cbn [rstrip String.length]; [lia|].
  destruct (rstrip s); [destruct (isspace c)|]; cbn [String.length] in *; lia.
Qed.

Lemma strip_fixed_head (c : ascii) (s : string) :
  strip (String c s) = String c s -> isspace c = false.
Proof.
  intros H. destruct (isspace c) eqn:Hc; [|reflexivity].
  apply (f_equal String.length) in H. unfold strip in H.
  cbn [lstrip] in H. rewrite Hc in H.
  pose proof (rstrip_length (lstrip s)). pose proof (lstrip_length s).
  cbn [String.length] in H. lia.
Qed.

Lemma rstrip_app_end (s : string) (c : ascii) :
  isspace c = false -> rstrip (s +:+ String c "") = s +:+ String c "".
Proof.
  intros Hc. induction s as [|x s IH].
  - change ("" +:+ String c "") with (String c ""). cbn [rstrip].
    by rewrite Hc.
  - rewrite str_app_cons. cbn [rstrip]. rewrite IH.
    destruct s; reflexivity.
Qed.

Lemma strip_fixed (c0 : ascii) (s : string) (c : ascii) :
  isspace c0 = false -> isspace c = false ->
  strip (String c0 (s +:+ String c "")) = String c0 (s +:+ String c "").
Proof.
  intros H0 Hc. unfold strip. cbn [lstrip]. rewrite H0.
  rewrite <- str_app_cons. by apply rstrip_app_end.
Qed.

Lemma before_char_app (sep : ascii) (s t : string) :
  count sep s = 0 -> before_char sep (s +:+ String sep t) = s.
Proof.
  induction s as [|c s IH]; intros Hc.
  - change ("" +:+ String sep t) with (String sep t). cbn [before_char].
    by rewrite Ascii.eqb_refl.
  - rewrite str_app_cons. cbn [before_char]. cbn [count] in Hc.
    destruct (Ascii.eqb c sep); [discriminate Hc|]. by rewrite IH.
Qed.

Lemma endswith_char_app (c : ascii) (s : string) :
  endswith_char c (s +:+ String c "") = true.
Proof.
  induction s as [|x s IH].
  - change ("" +:+ String c "") with (String c ""). cbn [endswith_char].
    apply Ascii.eqb_refl.
  - rewrite str_app_cons. cbn [endswith_char]. rewrite IH.
    destruct s; reflexivity.
Qed.

Lemma drop_last_app (c : ascii) (s : string) :
  drop_last (s +:+ String c "") = s.
Proof.
  induction s as [|x s IH]; [reflexivity|].
  rewrite str_app_cons. cbn [drop_last]. rewrite IH.
  destruct s; reflexivity.
Qed.

Lemma startswith_char_app (x c : ascii) (s t : string) :
  startswith (String x "") (String c s +:+ t)
  = startswith (String x "") (String c s).
Proof.
  unfold startswith. rewrite str_app_cons. simpl.
  destruct (ascii_dec x c); [|reflexivity].
  generalize (s +:+ t). intros u. by destruct s, u.
Qed.

Lemma startswith_same (x : ascii) (s : string) :
  startswith (String x "") (String x s) = true.
Proof.
  unfold startswith. simpl.
  destruct (ascii_dec x x); [by destruct s | congruence].
Qed.

Lemma yaml_step_label (out : list (string * list string))
    (lab : option string) (l : string) :
  clean_label l ->
  yaml_step (out, lab) (l +:+ ":") = Some (PyDict.set out l [], Some l).
Proof.
  intros (Hne & Hstrip & Hcolon & Hdash & Hhash & _).
  destruct l as [|c0 l]; [by destruct Hne|].
  pose proof (strip_fixed_head _ _ Hstrip) as Hc0.
  unfold yaml_step. rewrite str_app_cons, strip_fixed by (auto; reflexivity).
  rewrite <- str_app_cons.
  assert (Hh : startswith "#" (String c0 l +:+ ":") = false)
    by (by rewrite startswith_char_app).
  assert (Hd : startswith "-" (String c0 l +:+ ":") = false)
    by (by rewrite startswith_char_app).
  assert (Hc : contains_char ":" (String c0 l +:+ ":") = true).
  { unfold contains_char. rewrite count_app, Hcolon. reflexivity. }
  rewrite Hh, Hd, Hc, (before_char_app ":" _ "" Hcolon), Hstrip.
  rewrite str_app_cons. reflexivity.
Qed.

Lemma strip_render_item (p : string) :
  strip (render_item p) = "- " +:+ String dquote (p +:+ String dquote "").
Proof.
  unfold render_item, strip.
  change (lstrip ("  - " +:+ String dquote (p +:+ String dquote "")))
    with ("- " +:+ String dquote (p +:+ String dquote "")).
  change ("- " +:+ String dquote (p +:+ String dquote ""))
    with (("- " +:+ String dquote p) +:+ String dquote "").
  by apply rstrip_app_end.
Qed.

Lemma yaml_step_item (out : list (string * list string)) (l p : string) :
  l ≠ "" ->
  yaml_step (out, Some l) (render_item p)
  = (fun out' => (out', Some l)) <$> PyDict.append out l p.
Proof.
  intros Hl. unfold yaml_step. rewrite strip_render_item.
  change (truthy ("- " +:+ String dquote (p +:+ String dquote ""))) with true.
  change (startswith "#" ("- " +:+ String dquote (p +:+ String dquote "")))
    with false.
  change (startswith "-" ("- " +:+ String dquote (p +:+ String dquote "")))
    with true.
  cbn [negb orb andb Runner.opt_truthy]. rewrite andb_false_r.
  apply truthy_true in Hl. rewrite Hl.
  change (drop_first ("- " +:+ String dquote (p +:+ String dquote "")))
    with (String " " (String dquote (p +:+ String dquote ""))).
  assert (Hs : strip (String " " (String dquote (p +:+ String dquote "")))
               = String dquote (p +:+ String dquote "")).
  { unfold strip.
    change (lstrip (String " " (String dquote (p +:+ String dquote ""))))
      with (String dquote (p +:+ String dquote "")).
    rewrite <- str_app_cons. by apply rstrip_app_end. }
  rewrite Hs. unfold unquote.
  rewrite startswith_same.
  rewrite <- (str_app_cons dquote p), endswith_char_app.
  cbn [andb orb]. rewrite str_app_cons. cbn [drop_first].
  by rewrite drop_last_app.
Qed.

Lemma yaml_lines_items (done : list (string * list string)) (l : string)
    (ps acc : list string) :
  l ≠ "" -> ~ In l (map fst done) ->
  yaml_lines (done ++ [(l, acc)], Some l)%list (map render_item ps)
  = Some ((done ++ [(l, acc ++ ps)])%list, Some l).
Proof.
  intros Hl Hfresh. revert acc.
  induction ps as [|p ps IH]; intros acc; cbn [map yaml_lines].
  - by rewrite app_nil_r.
  - rewrite (yaml_step_item _ _ _ Hl), (dict_append_last _ _ _ _ Hfresh).
    cbn [fmap option_fmap option_map]. rewrite IH, <- app_assoc.
    reflexivity.
Qed.

Lemma yaml_lines_render (rules done : list (string * list string))
    (lab : option string) :
  NoDup (map fst (done ++ rules)) ->
  Forall (fun e => clean_label e.1) rules ->
  exists lab',
    yaml_lines (done, lab) (render_lines rules)
    = Some ((done ++ rules)%list, lab').
Proof.
  revert done lab.
  induction rules as [|[l ps] rules IH]; intros done lab Hnd Hclean.
  - exists lab. by rewrite app_nil_r.
  - apply Forall_cons_1 in Hclean as [Hl Hclean]. cbn [fst] in Hl.
    assert (Hfresh : ~ In l (map fst done)).
    { rewrite map_app in Hnd. apply NoDup_app in Hnd as (_ & Hd & _).
      intros Hin%list_elem_of_In. apply (Hd l Hin). cbn. left. }
    unfold render_lines. cbn [flat_map fst snd].
    rewrite <- app_comm_cons. cbn [yaml_lines].
    rewrite (yaml_step_label _ _ _ Hl), (dict_set_fresh _ _ _ Hfresh).
    rewrite yaml_lines_app.
    rewrite (yaml_lines_items done l ps [] (proj1 Hl) Hfresh). cbn [app].
    destruct (IH (done ++ [(l, ps)])%list (Some l)) as [lab' Hlab'].
    + by rewrite <- app_assoc.
    + exact Hclean.
    + exists lab'. fold (render_lines rules). rewrite Hlab', <- app_assoc.
      reflexivity.
Qed.

Lemma splitlines_line_feed (l rest : string) :
  no_linebreak l = true ->
  splitlines (l +:+ String "010" rest) = l :: splitlines rest.
Proof.
  unfold no_linebreak. induction l as [|c l IH]; intros Hl.
  - change ("" +:+ String "010" rest) with (String "010" rest).
    cbn [splitlines]. change (is_linebreak "010") with true. cbn iota.
    destruct rest as [|d rest]; reflexivity.
  - cbn [all_chars] in Hl. apply andb_true_iff in Hl as [Hc Hl].
    apply negb_true_iff in Hc.
    rewrite str_app_cons. cbn [splitlines]. rewrite Hc, (IH Hl).
    reflexivity.
Qed.

Lemma splitlines_one_line (l : string) :
  l ≠ "" -> no_linebreak l = true -> splitlines l = [l].
Proof.
  unfold no_linebreak. induction l as [|c l IH]; intros Hne Hl;
    [by destruct Hne|].
  cbn [all_chars] in Hl. apply andb_true_iff in Hl as [Hc Hl].
  apply negb_true_iff in Hc. cbn [splitlines]. rewrite Hc.
  destruct l as [|d l]; [reflexivity|].
  rewrite IH by (auto; discriminate). reflexivity.
Qed.

Lemma splitlines_join (lines : list string) :
  Forall (fun l => l ≠ "" /\ no_linebreak l = true) lines ->
  splitlines (join (String "010" "") lines) = lines.
Proof.
  induction 1 as [|l lines [Hne Hl] Hrest IH]; [reflexivity|].
  destruct lines as [|l' lines].
  - cbn [join]. by apply splitlines_one_line.
  - rewrite join_cons by discriminate.
    change (l +:+ String "010" "" +:+ join (String "010" "") (l' :: lines))
      with (l +:+ String "010" (join (String "010" "") (l' :: lines))).
    by rewrite (splitlines_line_feed _ _ Hl), IH.
Qed.

Lemma no_linebreak_app (a b : string) :
  no_linebreak (a +:+ b) = no_linebreak a && no_linebreak b.
Proof. apply all_chars_app. Qed.

Lemma render_lines_ok (rules : list (string * list string)) :
  Forall (fun e => clean_label e.1) rules ->
  Forall (fun e => Forall (fun p => no_linebreak p = true) e.2) rules ->
  Forall (fun l => l ≠ "" /\ no_linebreak l = true) (render_lines rules).
Proof.
  intros Hclean Hpats. unfold render_lines.
  induction rules as [|[l ps] rules IH]; [constructor|].
  apply Forall_cons_1 in Hclean as [Hl Hclean].
  apply Forall_cons_1 in Hpats as [Hps Hpats].
  cbn [flat_map fst snd] in *. constructor.
  - destruct Hl as (Hne & _ & _ & _ & _ & Hlb). split.
    + destruct l; [by destruct Hne | discriminate].
    + rewrite no_linebreak_app, Hlb. reflexivity.
  - apply Forall_app. split; [|by apply IH].
    clear -Hps. induction Hps as [|p ps Hp _ IHps]; cbn [map];
      constructor; [|exact IHps].
    split; [discriminate|]. unfold render_item.
    rewrite no_linebreak_app.
    change (String dquote (p +:+ String dquote ""))
      with (String dquote "" +:+ (p +:+ String dquote "")).
    by rewrite !no_linebreak_app, Hp.
Qed.

(** X8. Writing a rule document out, each label on its own line ending
    in a colon and each pattern as a double-quoted list item, and parsing
    the text with the fallback parser gives the document back, for labels
    that are distinct, trimmed, non-empty, free of colons and line breaks
    and that start with neither a dash nor a hash, and patterns free of
    line breaks. *)
Theorem fallback_round_trip (rules : list (string * list string)) :
  NoDup (map fst rules) ->
  Forall (fun e => clean_label e.1) rules ->
  Forall (fun e => Forall (fun p => no_linebreak p = true) e.2) rules ->
  fallback_parse_ssid_yaml (render_text rules) = Some rules.
Proof.
  intros Hnd Hclean Hpats. unfold fallback_parse_ssid_yaml, render_text.
  rewrite splitlines_join by (by apply render_lines_ok).
  destruct (yaml_lines_render rules [] None Hnd Hclean) as [lab ->].
  reflexivity.
Qed.

Lemma fallback_round_trip_witness :
  fallback_parse_ssid_yaml
    (render_text [("dji", ["^DJI[-_ ]"; "Mavic"]); ("parrot", ["Anafi"])])
  = Some [("dji", ["^DJI[-_ ]"; "Mavic"]); ("parrot", ["Anafi"])].
Proof.
  apply fallback_round_trip.
  - cbn. apply NoDup_cons. split; [|apply NoDup_singleton].
    intros H%list_elem_of_singleton. discriminate H.
  - repeat constructor; discriminate.
  - repeat constructor.
Defined.

(** ** Compiling the rules *)

Lemma compile_patterns_fold (compile : string -> option pattern)
    (rules : ssid_rule_set) (label : string) (pats : list string)
    (acc : list pattern) (warns : list (string * string)) :
  ~ In label (map fst rules) ->
  fold_left (compile_pattern compile label) pats
            ((rules ++ [(label, acc)])%list, warns)
  = ((rules ++ [(label, acc ++ omap compile pats)])%list,
     (warns ++ map (pair label) (failed compile pats))%list).
Proof.
  intros Hfresh. revert acc warns.
  induction pats as [|p pats IH]; intros acc warns.
  - cbn. by rewrite !app_nil_r.
  - cbn [fold_left compile_pattern]. rewrite (dict_touch_last _ _ _ Hfresh).
    unfold failed. cbn [omap list_omap List.filter].
    destruct (compile p) as [rx|] eqn:Hp.
    + rewrite (dict_push_last _ _ _ _ Hfresh), IH, <- app_assoc.
      reflexivity.
    + rewrite IH, <- app_assoc. reflexivity.
Qed.

Lemma compile_label_fold (compile : string -> option pattern)
    (rules : ssid_rule_set) (label : string) (pats : list string)
    (warns : list (string * string)) :
  ~ In label (map fst rules) -> pats ≠ [] ->
  fold_left (compile_pattern compile label) pats (rules, warns)
  = ((rules ++ [(label, omap compile pats)])%list,
     (warns ++ map (pair label) (failed compile pats))%list).
Proof.
  intros Hfresh Hne. destruct pats as [|p pats]; [by destruct Hne|].
  cbn [fold_left compile_pattern]. rewrite (dict_touch_fresh _ _ Hfresh).
  unfold failed. cbn [omap list_omap List.filter].
  destruct (compile p) as [rx|] eqn:Hp.
  - rewrite (dict_push_last _ _ _ _ Hfresh).
    by rewrite (compile_patterns_fold _ _ _ _ _ _ Hfresh).
  - rewrite (compile_patterns_fold _ _ _ _ _ _ Hfresh), <- app_assoc.
    reflexivity.
Qed.

Lemma compile_rules_fold (compile : string -> option pattern)
    (obj : list (string * list string)) (rules : ssid_rule_set)
    (warns : list (string * string)) :
  NoDup (map fst rules ++ map fst obj) ->
  fold_left
    (fun st entry =>
       if nonempty entry.2
       then fold_left (compile_pattern compile entry.1) entry.2 st
       else st)
    obj (rules, warns)
  = ((rules ++ map (fun e => (e.1, omap compile e.2))
                   (List.filter (fun e => nonempty e.2) obj))%list,
     (warns ++ flat_map (fun e => map (pair e.1) (failed compile e.2))
                        obj)%list).
Proof.
  revert rules warns. induction obj as [|[label pats] obj IH];
    intros rules warns Hnd.
  - cbn. by rewrite !app_nil_r.
  - cbn [fold_left fst snd List.filter flat_map map].
    assert (Hfresh : ~ In label (map fst rules)).
    { apply NoDup_app in Hnd as (_ & Hd & _).
      intros Hin%list_elem_of_In. apply (Hd label Hin). cbn. left. }
    destruct (nonempty pats) eqn:Hne.
    + apply nonempty_true in Hne.
      rewrite (compile_label_fold _ _ _ _ _ Hfresh Hne), IH.
      * cbn [map fst snd]. by rewrite <- !app_assoc.
      * rewrite map_app. cbn [map fst]. by rewrite <- app_assoc.
    + destruct pats; [|discriminate Hne]. rewrite IH.
      * reflexivity.
      * apply NoDup_app in Hnd as (H1 & H2 & H3).
        apply NoDup_app. split; [exact H1|]. split.
        -- intros x Hx Hin. apply (H2 x Hx). cbn. by right.
        -- by apply NoDup_cons in H3 as [_ H3].
Qed.

(** X9. For a document with distinct labels, compiling keeps the labels
    that have at least one pattern, in document order, each with the
    patterns that compile, in order; a label none of whose patterns
    compiles is kept with no pattern.  The warnings are the patterns that
    do not compile, in document order, so every pattern of a kept label
    is either compiled or reported. *)
Theorem compile_rules_spec (compile : string -> option pattern)
    (obj : list (string * list string)) :
  NoDup (map fst obj) ->
  compile_rules compile obj
  = (map (fun e => (e.1, omap compile e.2))
         (List.filter (fun e => nonempty e.2) obj),
     flat_map (fun e => map (pair e.1) (failed compile e.2)) obj)
  /\ forall label pats, In (label, pats) obj ->
       length pats = length (omap compile pats)
                     + length (failed compile pats).
Proof.
  intros Hnd. split.
  - unfold compile_rules. by rewrite (compile_rules_fold compile obj [] []).
  - intros label pats _. unfold failed.
    induction pats as [|p pats IH]; [reflexivity|].
    cbn [omap list_omap List.filter length].
    destruct (compile p); cbn; lia.
Qed.

Lemma compile_rules_spec_witness :
  (compile_rules (fun p => if String.eqb p "(" then None
                           else Some (startswith p))
                 [("dji", ["DJI"; "("]); ("empty", []); ("bad", ["("])]).2
  = [("dji", "("); ("bad", "(")].
Proof.
  destruct (compile_rules_spec
              (fun p => if String.eqb p "(" then None
                        else Some (startswith p))
              [("dji", ["DJI"; "("]); ("empty", []); ("bad", ["("])])
    as [H _].
  - cbn. repeat (apply NoDup_cons; split;
                 [intros H; repeat (apply elem_of_cons in H as [H|H];
                                    [discriminate H|]);
                  by apply elem_of_nil in H|]).
    apply NoDup_nil_2.
  - rewrite H. reflexivity.
Defined.

(** * Properties of the vendor-prefix validator *)

Lemma existsb_negb_forallb {A} (f : A -> bool) (l : list A) :
  existsb (fun x => negb (f x)) l = negb (forallb f l).
Proof.
  induction l as [|x l IH]; [reflexivity|]. cbn. rewrite IH.
  by destruct (f x).
Qed.

Lemma bad_format_test (o : string) :
  negb (length (split ":" o) =? 3)%nat
  || existsb (fun p => negb (String.length p =? 2)%nat) (split ":" o)
  = negb (well_shaped o).
Proof.
  unfold well_shaped. rewrite existsb_negb_forallb.
  by destruct (length (split ":" o) =? 3)%nat, (forallb _ _).
Qed.

Lemma check_row_facts (st : check_state) (i : nat) (row : dict_row) :
  errs (check_row st i row) = errs st + row_errors (seen st) row
  /\ seen (check_row st i row)
     = (if row_missing row then seen st
        else {[ normal_cell row ]} ∪ seen st)
  /\ exists new,
       diags (check_row st i row) = (diags st ++ new)%list
       /\ length (List.filter is_error new) = row_errors (seen st) row.
Proof.
  unfold check_row, row_errors, row_missing. fold (normal_cell row).
  rewrite bad_format_test.
  destruct (negb (truthy (strip (or_empty (row_get row "vendor"))))
            || negb (truthy (normal_cell row))).
  - cbn [errs seen diags]. split; [reflexivity|]. split; [reflexivity|].
    by eexists.
  - destruct (well_shaped (normal_cell row)); cbn [negb errs seen diags];
      destruct (bool_decide (normal_cell row ∈ seen st));
      cbn [errs seen diags];
      destruct (truthy _ && negb _); cbn [errs seen diags];
      (split; [lia|]); (split; [reflexivity|]);
      rewrite <- ?app_assoc;
      first [ by eexists
            | exists []; split; [by rewrite app_nil_r | reflexivity] ].
Qed.

Lemma row_errors_zero (sn : gset string) (row : dict_row) :
  row_errors sn row = 0 <-> row_ok row = true /\ normal_cell row ∉ sn.
Proof.
  unfold row_errors, row_ok, row_missing.
  destruct (truthy (strip (or_empty (row_get row "vendor"))));
    destruct (truthy (normal_cell row)); cbn [negb orb andb];
    try (split; [discriminate | intros [H _]; discriminate H]).
  destruct (well_shaped (normal_cell row));
    destruct (bool_decide_reflect (normal_cell row ∈ sn)); cbn;
    split; try discriminate; try tauto; try (intros [H _]; discriminate H).
Qed.

Lemma row_ok_not_missing (row : dict_row) :
  row_ok row = true -> row_missing row = false.
Proof.
  unfold row_ok, row_missing.
  destruct (truthy (strip _)), (truthy (normal_cell row)); cbn; auto;
    discriminate.
Qed.

Lemma check_rows_zero (rows : list dict_row) (st : check_state) (i : nat) :
  errs (check_rows st i rows) = 0
  <-> errs st = 0
      /\ Forall (fun r => row_ok r = true) rows
      /\ NoDup (map normal_cell rows)
      /\ forall r, In r rows -> normal_cell r ∉ seen st.
Proof.
  revert st i. induction rows as [|row rows IH]; intros st i.
  - cbn. split; [intros H|tauto].
    split; [exact H|]. split; [constructor|]. split; [constructor|].
    intros r [].
  - cbn [check_rows map]. rewrite IH.
    destruct (check_row_facts st i row) as (He & Hs & _).
    rewrite He, Hs. split.
    + intros (Hz & Hok & Hnd & Hfresh).
      assert (Hr : row_errors (seen st) row = 0) by lia.
      apply row_errors_zero in Hr as [Hrow Hnew].
      rewrite (row_ok_not_missing _ Hrow) in Hfresh. cbv iota in Hfresh.
      split; [lia|]. split; [by constructor|]. split.
      * apply NoDup_cons. split; [|exact Hnd].
        intros (r & Hc & Hin)%list_elem_of_In%in_map_iff.
        apply (Hfresh r Hin), elem_of_union. left.
        by apply elem_of_singleton.
      * intros r [<-|Hin]; [exact Hnew|].
        intros Hr. apply (Hfresh r Hin), elem_of_union. by right.
    + intros (Hz & Hok & Hnd & Hfresh).
      apply Forall_cons_1 in Hok as [Hrow Hok].
      apply NoDup_cons in Hnd as [Hhead Hnd].
      assert (Hr : row_errors (seen st) row = 0).
      { apply row_errors_zero. split; [exact Hrow|]. apply Hfresh. by left. }
      rewrite (row_ok_not_missing _ Hrow). cbv iota.
      split; [lia|]. split; [exact Hok|]. split; [exact Hnd|].
      intros r Hin [Heq%elem_of_singleton|Hr']%elem_of_union.
      * apply Hhead, list_elem_of_In, in_map_iff. exists r. auto.
      * apply (Hfresh r); [by right | exact Hr'].
Qed.

(** X10. The validator reports no error for a file exactly when its
    first line names exactly the columns vendor, oui, source_url and
    notes, every row has a vendor and a prefix of the shape [XX:XX:XX],
    and no two rows have the same normalised prefix. *)
Theorem check_csv_clean (lines : list csv_row) :
  (exists ds, check_csv lines = Some (0, ds))
  <-> exists header rest,
        lines = header :: rest
        /\ list_to_set header = required_columns
        /\ Forall (fun r => row_ok r = true) (dict_reader lines).2
        /\ NoDup (map normal_cell (dict_reader lines).2).
Proof.
  unfold check_csv. destruct lines as [|header rest].
  - cbn. split; [intros [ds H]; discriminate H|].
    intros (h & r & H & _). discriminate H.
  - cbn [dict_reader snd].
    set (rows := map (dict_of_row header) _).
    destruct (bool_decide_reflect
                (list_to_set header = required_columns)) as [Hset|Hset].
    + split.
      * intros [ds [= Hz _]]. apply check_rows_zero in Hz
          as (_ & Hok & Hnd & _). exists header, rest. auto.
      * intros (h & r & [= <- <-] & _ & Hok & Hnd). eexists.
        f_equal. f_equal. apply check_rows_zero. cbn.
        repeat split; auto. intros r' _. apply not_elem_of_empty.
    + split; [intros [ds H]; discriminate H|].
      intros (h & r & [= <- <-] & Hs & _). contradiction.
Qed.

Lemma check_csv_zero_rows (lines : list csv_row) (ds : list diag) :
  check_csv lines = Some (0, ds) ->
  Forall (fun r => row_ok r = true) (dict_reader lines).2
  /\ NoDup (map normal_cell (dict_reader lines).2).
Proof.
  unfold check_csv. destruct lines as [|header rest]; [discriminate|].
  cbn [dict_reader snd].
  destruct (bool_decide _); [|discriminate].
  intros [= Hz _]. apply check_rows_zero in Hz as (_ & Hok & Hnd & _). auto.
Qed.

Lemma add_oui_rows_size (rows : list dict_row) (known : gset string) :
  Forall (fun r => row_ok r = true) rows ->
  NoDup (map normal_cell rows) ->
  (forall r, In r rows -> normal_cell r ∉ known) ->
  size (fold_left add_oui_row rows known) = length rows + size known.
Proof.
  revert known. induction rows as [|row rows IH]; intros known Hok Hnd Hfresh;
    [reflexivity|].
  cbn [fold_left length map] in *.
  apply Forall_cons_1 in Hok as [Hrow Hok].
  apply NoDup_cons in Hnd as [Hhead Hnd].
  rewrite add_oui_row_eq.
  assert (Hw : well_shaped (normal_cell row) = true).
  { unfold row_ok in Hrow. by apply andb_true_iff in Hrow as [_ Hw]. }
  rewrite Hw, IH; [|exact Hok|exact Hnd|].
  - rewrite size_union, size_singleton; [lia|].
    apply disjoint_singleton_l, Hfresh. by left.
  - intros r Hin [Heq%elem_of_singleton|Hr]%elem_of_union.
    + apply Hhead, list_elem_of_In, in_map_iff. exists r. auto.
    + apply (Hfresh r); [by right | exact Hr].
Qed.

(** X11. A file the validator finds no error in loads without loss: read
    as the only source, every data row contributes its own prefix, so the
    loaded set has as many prefixes as the file has data rows. *)
Theorem validated_file_loads (lines : list csv_row) (ds : list diag)
    (data : data_dir) (include_modules : bool) :
  check_csv lines = Some (0, ds) ->
  data "oui_drones.csv" = Some (dict_reader lines).2 ->
  data "oui_modules.csv" = None ->
  size (load_ouis data include_modules) = length (dict_reader lines).2
  /\ forall row, In row (dict_reader lines).2 ->
       normal_cell row ∈ load_ouis data include_modules.
Proof.
  intros [Hok Hnd]%check_csv_zero_rows Hd Hm.
  assert (Hload : load_ouis data include_modules
                  = fold_left add_oui_row (dict_reader lines).2 ∅).
  { unfold load_ouis, add_oui_source.
    destruct include_modules; cbn [app fold_left]; by rewrite Hd, ?Hm. }
  rewrite Hload. split.
  - rewrite add_oui_rows_size; [|exact Hok|exact Hnd|].
    + rewrite size_empty. lia.
    + intros r _. apply not_elem_of_empty.
  - intros row Hin. apply add_oui_rows_members. right. exists row.
    split; [exact Hin|]. split; [reflexivity|].
    rewrite <- well_shaped_normal_cell.
    rewrite Forall_forall in Hok.
    specialize (Hok row (proj2 (list_elem_of_In _ _) Hin)).
    unfold row_ok in Hok. by apply andb_true_iff in Hok as [_ Hw].
Qed.

Lemma validated_file_loads_witness :
  size (load_ouis
          (only_drones
             (dict_reader
                [ ["vendor"; "oui"; "source_url"; "notes"];
                  ["DJI"; "60-60-1f"; "https://example.org"; ""];
                  ["Parrot"; "90:3A:E6"; ""; ""] ]).2) true)
  = length (dict_reader
              [ ["vendor"; "oui"; "source_url"; "notes"];
                ["DJI"; "60-60-1f"; "https://example.org"; ""];
                ["Parrot"; "90:3A:E6"; ""; ""] ]).2.
Proof.
  assert (Hc : check_csv
                 [ ["vendor"; "oui"; "source_url"; "notes"];
                   ["DJI"; "60-60-1f"; "https://example.org"; ""];
                   ["Parrot"; "90:3A:E6"; ""; ""] ] = Some (0, []))
    by (vm_compute; reflexivity).
  exact (proj1 (validated_file_loads _ _ (only_drones _) true
                  Hc eq_refl eq_refl)).
Defined.

Lemma check_csv_none (lines : list csv_row) :
  check_csv lines = None <-> lines = [].
Proof.
  unfold check_csv. destruct lines as [|header rest].
  - cbn [dict_reader]. split; reflexivity.
  - cbn [dict_reader]. destruct (bool_decide _); split; discriminate.
Qed.

Lemma check_file_cases (files : string -> option (list csv_row))
    (name : string) (total : nat) :
  match files name with
  | None => Some total
  | Some lines => (fun r : nat * list diag => total + r.1) <$> check_csv lines
  end
  = if bool_decide (files name = Some []) then None
    else Some (total + match files name with
                       | Some lines => default 0 (fst <$> check_csv lines)
                       | None => 0
                       end).
Proof.
  destruct (files name) as [lines|].
  - destruct (check_csv lines) as [[n ds]|] eqn:Hc.
    + rewrite bool_decide_eq_false_2; [reflexivity|].
      intros [= ->]. discriminate Hc.
    + apply check_csv_none in Hc as ->. by rewrite bool_decide_eq_true_2.
  - rewrite bool_decide_eq_false_2; [|discriminate]. f_equal. lia.
Qed.

Lemma file_clean_count (files : string -> option (list csv_row))
    (name : string) :
  files name <> Some [] ->
  file_clean files name
  <-> match files name with
      | Some lines => default 0 (fst <$> check_csv lines)
      | None => 0
      end = 0.
Proof.
  unfold file_clean. intros Hne. destruct (files name) as [lines|]; [|done].
  destruct (check_csv lines) as [[n ds]|] eqn:Hc.
  - cbn. split; [by intros [ds' [= -> _]] | intros ->; by eexists].
  - apply check_csv_none in Hc as ->. by destruct Hne.
Qed.

(** X12. The exit status of the validator: it ends with a [TypeError]
    exactly when one of the two data files exists without a first line;
    it ends with status 0 exactly when every data file that exists is
    free of errors; in every other case its status is 1. *)
Theorem validate_main_status (files : string -> option (list csv_row)) :
  (validate_main files = None
   <-> files "oui_drones.csv" = Some [] \/ files "oui_modules.csv" = Some [])
  /\ (validate_main files = Some 0
      <-> file_clean files "oui_drones.csv"
          /\ file_clean files "oui_modules.csv")
  /\ (forall n, validate_main files = Some n -> n = 0 \/ n = 1).
Proof.
  unfold validate_main. rewrite check_file_cases.
  destruct (bool_decide_reflect (files "oui_drones.csv" = Some []))
    as [He1|He1].
  { split; [split; [auto|reflexivity]|]. split; [|intros n H; discriminate H].
    split; [discriminate|]. unfold file_clean. rewrite He1.
    intros [[ds Hc] _]. discriminate Hc. }
  rewrite check_file_cases.
  destruct (bool_decide_reflect (files "oui_modules.csv" = Some []))
    as [He2|He2].
  { split; [split; [auto|reflexivity]|]. split; [|intros n H; discriminate H].
    split; [discriminate|]. unfold file_clean. rewrite He2.
    intros [_ [ds Hc]]. discriminate Hc. }
  rewrite (file_clean_count _ _ He1), (file_clean_count _ _ He2).
  set (n1 := match files "oui_drones.csv" with Some _ => _ | None => _ end).
  set (n2 := match files "oui_modules.csv" with Some _ => _ | None => _ end).
  split; [split; [discriminate | tauto]|]. split.
  - destruct (Nat.eqb_spec (0 + n1 + n2) 0) as [Hz|Hz].
    + split; [lia|reflexivity].
    + split; [discriminate|lia].
  - intros n [= <-]. destruct (_ =? 0)%nat; auto.
Qed.
